(** * vue-gl-troika-text: the prop-to-Text mapping layer

    A shallow embedding of [src/vue-gl-troika-text.ts]: the five helper
    functions at the top of the file, the props table, the computed
    [inst], the watchers and the [destroyed] hook, over a small model of
    the JavaScript values they handle. *)

From Stdlib Require Import ZArith NArith Ascii String List Bool Lia.
From Stdlib Require Import DecimalString DecimalPos DecimalN.
From stdpp Require Import base option strings list gmap.

Local Open Scope string_scope.
Local Open Scope list_scope.

#[local] Set Warnings "-register-all".

(** ** JavaScript values *)

Module JS.

(** A number is NaN, an infinity, or a finite decimal
    [(-1)^neg * m * 10^e].  Every double has such a form; a finite number
    is kept as the decimal that [Number::toString] prints for it and that
    [parseFloat] reads back, so the rounding of long literals to the
    nearest double is left out. *)
Inductive number : Set :=
  | NaN
  | Infinity (neg : bool)
  | Fin (neg : bool) (m : N) (e : Z).

(** The values a prop can receive.  An object carries its own properties
    in insertion order; a [THREE.Color] is an object whose [isColor] is
    [true].  Functions and symbols do not occur. *)
Inductive value : Type :=
  | VUndefined
  | VNull
  | VBool (b : bool)
  | VNum (n : number)
  | VStr (s : string)
  | VArr (items : list value)
  | VObj (fields : list (string * value)).

Inductive error : Set :=
  | TypeError (what : string).

(** Outcome of a call: a returned value or a thrown exception. *)
Inductive completion (A : Type) : Type :=
  | Return (a : A)
  | Throw (err : error).
Arguments Return {A} a.
Arguments Throw {A} err.

#[global] Instance completion_ret : MRet completion := @Return.
#[global] Instance completion_bind : MBind completion :=
  fun A B (f : A -> completion B) (c : completion A) =>
    match c with
    | Return a => f a
    | Throw e => Throw e
    end.

Definition returns {A} (c : completion A) : Prop :=
  match c with Return _ => True | Throw _ => False end.

Definition throws {A} (c : completion A) : Prop :=
  match c with Return _ => False | Throw _ => True end.

Definition is_NaN (n : number) : bool :=
  match n with NaN => true | _ => false end.

(** [typeof v === 'number'], [typeof v === 'string'], [Array.isArray]. *)
Definition typeof_number (v : value) : bool :=
  match v with VNum _ => true | _ => false end.

Definition typeof_string (v : value) : bool :=
  match v with VStr _ => true | _ => false end.

Definition isArray (v : value) : bool :=
  match v with VArr _ => true | _ => false end.

(** [v == null]: true of [null] and of [undefined]. *)
Definition eq_null (v : value) : bool :=
  match v with VNull | VUndefined => true | _ => false end.

(** ToBoolean. *)
Definition truthy (v : value) : bool :=
  match v with
  | VUndefined | VNull => false
  | VBool b => b
  | VNum NaN => false
  | VNum (Fin _ m _) => negb (N.eqb m 0)
  | VNum (Infinity _) => true
  | VStr s => negb (String.eqb s EmptyString)
  | VArr _ | VObj _ => true
  end.

(** [a || b] yields the left operand when it is truthy. *)
Definition or_else (a b : value) : value :=
  if truthy a then a else b.

Fixpoint assoc (k : string) (fs : list (string * value)) : option value :=
  match fs with
  | [] => None
  | (k', v) :: fs' => if String.eqb k k' then Some v else assoc k fs'
  end.

(** [v.name] for a name that no prototype defines: a property read on
    [null] or [undefined] throws, on a primitive or an array it is
    [undefined], on an object it is the own property. *)
Definition get (v : value) (name : string) : completion value :=
  match v with
  | VUndefined | VNull =>
      Throw (TypeError ("Cannot read properties of null or undefined: " +:+ name))
  | VObj fs => Return (default VUndefined (assoc name fs))
  | _ => Return VUndefined
  end.

(** ** Strings *)

(** [s.split(sep)] for a one-character separator. *)
Fixpoint split (sep : ascii) (s : string) : list string :=
  match s with
  | EmptyString => [EmptyString]
  | String c s' =>
      if Ascii.eqb c sep then EmptyString :: split sep s'
      else match split sep s' with
           | [] => [String c EmptyString]
           | piece :: pieces => String c piece :: pieces
           end
  end.

Fixpoint join (sep : string) (l : list string) : string :=
  match l with
  | [] => EmptyString
  | [s] => s
  | s :: l' => s +:+ sep +:+ join sep l'
  end.

(** White space and line terminators in the ASCII range. *)
Definition is_white_space (c : ascii) : bool :=
  let n := N_of_ascii c in
  ((9 <=? n) && (n <=? 13))%N || (n =? 32)%N.

Fixpoint trim_start (s : string) : string :=
  match s with
  | String c s' => if is_white_space c then trim_start s' else s
  | EmptyString => s
  end.

Definition digit_of (c : ascii) : option N :=
  let n := N_of_ascii c in
  if ((48 <=? n) && (n <=? 57))%N then Some (n - 48)%N else None.

(** The longest run of decimal digits at the front of [s], and the rest. *)
Fixpoint take_digits (s : string) : list N * string :=
  match s with
  | String c s' =>
      match digit_of c with
      | Some d => let (ds, rest) := take_digits s' in (d :: ds, rest)
      | None => ([], s)
      end
  | EmptyString => ([], s)
  end.

Definition digits_value (ds : list N) : N :=
  fold_left (fun acc d => acc * 10 + d)%N ds 0%N.

Fixpoint drop_zeros (ds : list N) : list N :=
  match ds with
  | 0%N :: ds' => drop_zeros ds'
  | _ => ds
  end.

(** The number with decimal digits [ds] scaled by [10^e], in the form
    whose mantissa has no trailing zero. *)
Definition mk_fin (neg : bool) (ds : list N) (e : Z) : number :=
  let sig := rev (drop_zeros (rev ds)) in
  let m := digits_value sig in
  if N.eqb m 0 then Fin neg 0 0
  else Fin neg m (e + Z.of_nat (length ds - length sig)).

Definition parse_sign (s : string) : bool * string :=
  match s with
  | String "-" r => (true, r)
  | String "+" r => (false, r)
  | _ => (false, s)
  end.

(** An optional ExponentPart: [e] or [E], an optional sign, digits.
    Without digits nothing is consumed. *)
Definition parse_exponent (s : string) : Z * string :=
  match s with
  | String c r =>
      if Ascii.eqb c "e" || Ascii.eqb c "E" then
        let (neg, r1) := parse_sign r in
        match take_digits r1 with
        | ([], _) => (0%Z, s)
        | (ds, r2) =>
            let x := Z.of_N (digits_value ds) in
            ((if neg then - x else x)%Z, r2)
        end
      else (0%Z, s)
  | EmptyString => (0%Z, s)
  end.

Definition starts_with (p s : string) : bool :=
  String.eqb (substring 0 (String.length p) s) p.

(** The longest prefix of [s] that is a StrDecimalLiteral, as its value
    and the unread rest; [None] when no prefix is one. *)
Definition str_decimal_literal (s : string) : option (number * string) :=
  let (neg, r) := parse_sign s in
  if starts_with "Infinity" r then
    Some (Infinity neg, substring 8 (String.length r - 8) r)
  else
    let (di, r1) := take_digits r in
    let (df, r2) :=
      match r1 with
      | String "." r' => take_digits r'
      | _ => ([], r1)
      end in
    match di ++ df with
    | [] => None
    | ds =>
        let (x, r3) := parse_exponent r2 in
        Some (mk_fin neg ds (x - Z.of_nat (length df)), r3)
    end.

(** [parseFloat] on a string. *)
Definition parse_float (s : string) : number :=
  match str_decimal_literal (trim_start s) with
  | Some (n, _) => n
  | None => NaN
  end.

(** ** Number::toString *)

Definition digit_char (d : N) : ascii := ascii_of_N (48 + d).

Definition string_of_digits (ds : list N) : string :=
  fold_right (fun d s => String (digit_char d) s) EmptyString ds.

Fixpoint digits_of_uint (u : Decimal.uint) : list N :=
  match u with
  | Decimal.Nil => []
  | Decimal.D0 u' => 0%N :: digits_of_uint u'
  | Decimal.D1 u' => 1%N :: digits_of_uint u'
  | Decimal.D2 u' => 2%N :: digits_of_uint u'
  | Decimal.D3 u' => 3%N :: digits_of_uint u'
  | Decimal.D4 u' => 4%N :: digits_of_uint u'
  | Decimal.D5 u' => 5%N :: digits_of_uint u'
  | Decimal.D6 u' => 6%N :: digits_of_uint u'
  | Decimal.D7 u' => 7%N :: digits_of_uint u'
  | Decimal.D8 u' => 8%N :: digits_of_uint u'
  | Decimal.D9 u' => 9%N :: digits_of_uint u'
  end.

Definition digits_of_N (n : N) : list N := digits_of_uint (N.to_uint n).

Definition zeros (k : nat) : list N := repeat 0%N k.

(** Number::toString in radix 10 for a positive finite number.  With
    [k] significant digits and the decimal point after the [n]-th of
    them, the four layouts of the standard: plain integer, embedded
    point, leading [0.], exponent. *)
Definition positive_to_string (m : N) (e : Z) : string :=
  let all := digits_of_N m in
  let sig := rev (drop_zeros (rev all)) in
  let k := length sig in
  let n := (Z.of_nat (length all) + e)%Z in
  if ((Z.of_nat k <=? n) && (n <=? 21))%Z then
    string_of_digits (sig ++ zeros (Z.to_nat n - k))
  else if ((0 <? n) && (n <=? 21))%Z then
    string_of_digits (take (Z.to_nat n) sig) +:+ "." +:+
    string_of_digits (drop (Z.to_nat n) sig)
  else if ((-6 <? n) && (n <=? 0))%Z then
    "0." +:+ string_of_digits (zeros (Z.to_nat (- n)) ++ sig)
  else
    let x := (n - 1)%Z in
    string_of_digits (take 1 sig) +:+
    (match drop 1 sig with
     | [] => EmptyString
     | more => "." +:+ string_of_digits more
     end) +:+
    "e" +:+ (if (x <? 0)%Z then "-" else "+") +:+
    string_of_digits (digits_of_N (Z.abs_N x)).

Definition number_to_string (x : number) : string :=
  match x with
  | NaN => "NaN"
  | Infinity neg => (if neg then "-" else EmptyString) +:+ "Infinity"
  | Fin neg m e =>
      if N.eqb m 0 then "0"
      else (if neg then "-" else EmptyString) +:+ positive_to_string m e
  end.

(** ToString.  [Array.prototype.join] prints [null] and [undefined]
    elements as the empty string; a plain object prints as
    [[object Object]]. *)
Fixpoint to_string (v : value) : string :=
  match v with
  | VUndefined => "undefined"
  | VNull => "null"
  | VBool b => if b then "true" else "false"
  | VNum n => number_to_string n
  | VStr s => s
  | VArr items =>
      join ","
        (map (fun item => if eq_null item then EmptyString else to_string item)
           items)
  | VObj _ => "[object Object]"
  end.

(** The global [parseFloat]: ToString, then the literal prefix. *)
Definition parseFloat (v : value) : number := parse_float (to_string v).

End JS.

(** ** The helper functions of the source file *)

Module Helpers.
Import JS.

(** [array.split(',')] as a method call on an arbitrary value: only a
    string has the method. *)
Definition call_split (v : value) (sep : ascii) : completion (list value) :=
  match v with
  | VStr s => Return (map VStr (split sep s))
  | VUndefined | VNull =>
      Throw (TypeError "Cannot read properties of null or undefined: split")
  | _ => Throw (TypeError "array.split is not a function")
  end.

(** [nullableParser(parser)]; [None] is the [null] of [TOut | null]. *)
Definition nullableParser {TOut : Type} (parser : value -> completion TOut)
    : value -> completion (option TOut) :=
  fun value =>
    if eq_null value then Return None
    else parsed ← parser value; mret (Some parsed).

(** [nullableValidator(validator)]. *)
Definition nullableValidator (validator : value -> completion value)
    : value -> completion value :=
  fun value => if eq_null value then Return (VBool true) else validator value.

Definition validateFloatArray (array : value) : completion value :=
  elements ← (if isArray array
              then Return (match array with VArr items => items | _ => [] end)
              else call_split array ",");
  mret (VBool (forallb (fun value => negb (is_NaN (parseFloat value))) elements)).

Definition validateColor (color : value) : completion value :=
  isColor ← get color "isColor";
  mret (or_else (or_else isColor (VBool (typeof_number color)))
                (VBool (typeof_string color))).

(** [map] hands the callback the element, its index and the array;
    [parseFloat] reads its first argument only. *)
Definition parseFloatArray (array : value) : completion (list number) :=
  match array with
  | VArr items =>
      Return (map (fun item => match item with
                               | VNum n => n
                               | _ => parseFloat item
                               end) items)
  | _ => pieces ← call_split array ","; mret (map parseFloat pieces)
  end.

(** A validator accepts a value when it returns something truthy. *)
Definition accepts (validator : value -> completion value) (v : value) : bool :=
  match validator v with
  | Return r => truthy r
  | Throw _ => false
  end.

End Helpers.

(** ** The component *)

Module TroikaText.
Import JS Helpers.

(** The declared props, in the order of the props table. *)
Inductive prop : Set :=
  | text
  | anchorX
  | anchorY
  | curveRadius
  | direction
  | font
  | fontSize
  | letterSpacing
  | lineHeight
  | maxWidth
  | overflowWrap
  | textAlign
  | textIndent
  | whiteSpace
  | color
  | colorRanges
  | outlineWidth
  | outlineColor
  | outlineOpacity
  | outlineBlur
  | outlineOffsetY
  | outlineOffsetX
  | strokeWidth
  | strokeColor
  | strokeOpacity
  | fillOpacity
  | depthOffset
  | clipRect
  | orientation
  | glyphGeometryDetail
  | sdfGlyphSize.

Definition declared : list prop :=
  [text; anchorX; anchorY; curveRadius; direction; font; fontSize; letterSpacing;
   lineHeight; maxWidth; overflowWrap; textAlign; textIndent; whiteSpace; color;
   colorRanges; outlineWidth; outlineColor; outlineOpacity; outlineBlur;
   outlineOffsetY; outlineOffsetX; strokeWidth; strokeColor; strokeOpacity;
   fillOpacity; depthOffset; clipRect; orientation; glyphGeometryDetail;
   sdfGlyphSize].

#[global] Instance prop_eq_dec : EqDecision prop.
Proof. solve_decision. Defined.

(** The key of a prop, which is also the name of the [Text] field it
    is mirrored to. *)
Definition name (p : prop) : string :=
  match p with
  | text => "text"
  | anchorX => "anchorX"
  | anchorY => "anchorY"
  | curveRadius => "curveRadius"
  | direction => "direction"
  | font => "font"
  | fontSize => "fontSize"
  | letterSpacing => "letterSpacing"
  | lineHeight => "lineHeight"
  | maxWidth => "maxWidth"
  | overflowWrap => "overflowWrap"
  | textAlign => "textAlign"
  | textIndent => "textIndent"
  | whiteSpace => "whiteSpace"
  | color => "color"
  | colorRanges => "colorRanges"
  | outlineWidth => "outlineWidth"
  | outlineColor => "outlineColor"
  | outlineOpacity => "outlineOpacity"
  | outlineBlur => "outlineBlur"
  | outlineOffsetY => "outlineOffsetY"
  | outlineOffsetX => "outlineOffsetX"
  | strokeWidth => "strokeWidth"
  | strokeColor => "strokeColor"
  | strokeOpacity => "strokeOpacity"
  | fillOpacity => "fillOpacity"
  | depthOffset => "depthOffset"
  | clipRect => "clipRect"
  | orientation => "orientation"
  | glyphGeometryDetail => "glyphGeometryDetail"
  | sdfGlyphSize => "sdfGlyphSize"
  end.

Inductive constructor : Set := String_ | Number_ | Color_ | Array_.

Record options : Type := {
  type : list constructor;
  default : value;
  validator : option (value -> completion value)
}.

Definition zero : number := Fin false 0 0.
Definition one : number := Fin false 1 0.

(** The [props] table; [0x808080] is 8421504. *)
Definition props (p : prop) : options :=
  match p with
  | text => {| type := [String_]; default := VStr EmptyString;
      validator := None |}
  | anchorX => {| type := [String_; Number_]; default := VNum zero;
      validator := None |}
  | anchorY => {| type := [String_; Number_]; default := VNum zero;
      validator := None |}
  | curveRadius => {| type := [Number_]; default := VNum zero;
      validator := None |}
  | direction => {| type := [String_]; default := VStr "auto";
      validator := None |}
  | font => {| type := [String_]; default := VNull;
      validator := None |}
  | fontSize => {| type := [Number_]; default := VNum (Fin false 1 (-1));
      validator := None |}
  | letterSpacing => {| type := [Number_]; default := VNum zero;
      validator := None |}
  | lineHeight => {| type := [String_; Number_]; default := VStr "normal";
      validator := None |}
  | maxWidth => {| type := [Number_]; default := VNum (Infinity false);
      validator := None |}
  | overflowWrap => {| type := [String_]; default := VStr "normal";
      validator := None |}
  | textAlign => {| type := [String_]; default := VStr "left";
      validator := None |}
  | textIndent => {| type := [Number_]; default := VNum zero;
      validator := None |}
  | whiteSpace => {| type := [String_]; default := VStr "normal";
      validator := None |}
  | color => {| type := [String_; Color_; Number_]; default := VNull;
      validator := Some (nullableValidator validateColor) |}
  | colorRanges => {| type := [Array_]; default := VNull;
      validator := None |}
  | outlineWidth => {| type := [String_; Number_]; default := VNum zero;
      validator := None |}
  | outlineColor => {| type := [String_; Color_; Number_]; default := VNum zero;
      validator := Some (nullableValidator validateColor) |}
  | outlineOpacity => {| type := [Number_]; default := VNum one;
      validator := None |}
  | outlineBlur => {| type := [String_; Number_]; default := VNum zero;
      validator := None |}
  | outlineOffsetY => {| type := [String_; Number_]; default := VNum zero;
      validator := None |}
  | outlineOffsetX => {| type := [String_; Number_]; default := VNum zero;
      validator := None |}
  | strokeWidth => {| type := [String_; Number_]; default := VNum zero;
      validator := None |}
  | strokeColor => {| type := [String_; Color_; Number_]; default := VNum (Fin false 8421504 0);
      validator := Some (nullableValidator validateColor) |}
  | strokeOpacity => {| type := [Number_]; default := VNum one;
      validator := None |}
  | fillOpacity => {| type := [Number_]; default := VNum one;
      validator := None |}
  | depthOffset => {| type := [Number_]; default := VNum zero;
      validator := None |}
  | clipRect => {| type := [Array_]; default := VNull;
      validator := Some (nullableValidator validateFloatArray) |}
  | orientation => {| type := [String_]; default := VStr "+x+y";
      validator := None |}
  | glyphGeometryDetail => {| type := [Number_]; default := VNum one;
      validator := None |}
  | sdfGlyphSize => {| type := [Number_]; default := VNull;
      validator := None |}
  end.

(** *** The objects the component talks to *)

(** The one listener the component ever registers:
    [() => { this.vglObject3d.emit() }]. *)
Inductive callback : Set := EmitOnHost.

(** A [Text] as this file sees it: [fields] holds what this file has
    written to the object, [listeners] what it has registered on it.
    The presets of the library's constructor and the writes of the
    watchers inherited from the [VglMesh] mixin are made outside this
    file and are not recorded: a field absent here is one this file
    has not written, whatever the object itself holds. *)
Record Text : Type := {
  fields : gmap string value;
  listeners : list (string * callback)
}.

(** References to [Text] objects are positions in the heap. *)
Abbreviation loc := nat (only parsing).

(** Calls on the collaborators, in the order they happen. *)
Inductive call : Type :=
  | NewText (l : loc)
  | AddEventListener (l : loc) (event : string)
  | Assign (l : loc) (field : string) (v : value)
  | Sync (l : loc)
  | Dispose (l : loc)
  | Emit.

(** The component instance: the current prop values, the cache of the
    computed [inst], the [Text] objects constructed so far, whether the
    host has destroyed the component, and the calls made. *)
Record vm : Type := {
  data : gmap string value;
  cached_inst : option loc;
  heap : list Text;
  is_destroyed : bool;
  trace : list call
}.

Definition M (A : Type) : Type := vm -> completion (A * vm).

#[global] Instance M_ret : MRet M := fun A (a : A) (s : vm) => Return (a, s).
#[global] Instance M_bind : MBind M :=
  fun A B (f : A -> M B) (m : M A) (s : vm) =>
    match m s with
    | Return (a, s') => f a s'
    | Throw e => Throw e
    end.

Definition lift {A} (c : completion A) : M A :=
  fun s => match c with Return a => Return (a, s) | Throw e => Throw e end.

(** State updates: a call appended to the trace, the heap changed. *)
Definition recorded (c : call) (s : vm) : vm :=
  {| data := data s; cached_inst := cached_inst s; heap := heap s;
     is_destroyed := is_destroyed s; trace := trace s ++ [c] |}.

Definition with_heap (f : list Text -> list Text) (s : vm) : vm :=
  {| data := data s; cached_inst := cached_inst s; heap := f (heap s);
     is_destroyed := is_destroyed s; trace := trace s |}.

Definition record (c : call) : M unit :=
  fun s => Return (tt, recorded c s).

Definition modify_heap (f : list Text -> list Text) : M unit :=
  fun s => Return (tt, with_heap f s).

Definition fresh : Text := {| fields := ∅; listeners := [] |}.

Definition listen (event : string) (cb : callback) (t : Text) : Text :=
  {| fields := fields t; listeners := listeners t ++ [(event, cb)] |}.

Definition write (field : string) (v : value) (t : Text) : Text :=
  {| fields := <[field := v]> (fields t); listeners := listeners t |}.

(** [new Text()]. *)
Definition new_Text : M loc :=
  fun s =>
    let l := length (heap s) in
    (modify_heap (fun h => h ++ [fresh]);; record (NewText l);; mret l) s.

(** [mesh.addEventListener(event, cb)]. *)
Definition addEventListener (l : loc) (event : string) (cb : callback) : M unit :=
  modify_heap (alter (listen event cb) l);;
  record (AddEventListener l event).

(** [obj.field = v] on the [Text] at [l]. *)
Definition assign (l : loc) (field : string) (v : value) : M unit :=
  modify_heap (alter (write field v) l);;
  record (Assign l field v).

Definition sync (l : loc) : M unit := record (Sync l).
Definition dispose (l : loc) : M unit := record (Dispose l).

(** [this.vglObject3d.emit()]. *)
Definition emit : M unit := record Emit.

(** [this.<prop>]. *)
Definition value_of (s : vm) (p : prop) : value :=
  from_option id VUndefined (data s !! name p).

Definition this (p : prop) : M value :=
  fun s => Return (value_of s p, s).

(** *** computed *)

(** The getter of the computed [inst]. *)
Definition inst_getter : M loc :=
  mesh ← new_Text;
  addEventListener mesh "synccomplete" EmitOnHost;;
  mret mesh.

Definition cache_inst (l : loc) : M unit :=
  fun s => Return (tt, {| data := data s; cached_inst := Some l;
                          heap := heap s; is_destroyed := is_destroyed s;
                          trace := trace s |}).

(** [this.inst]: the getter reads no reactive state, so the host runs
    it on the first access and serves the cached object afterwards. *)
Definition inst : M loc :=
  fun s =>
    match cached_inst s with
    | Some l => Return (l, s)
    | None => (l ← inst_getter; cache_inst l;; mret l) s
    end.

(** [this.inst.<field> = v], [this.inst.sync()]. *)
Definition set_inst (field : string) (v : value) : M unit :=
  l ← inst; assign l field v.

Definition sync_inst : M unit := l ← inst; sync l.

(** A [number[] | null] as a value. *)
Definition of_numbers (r : option (list number)) : value :=
  match r with
  | None => VNull
  | Some ns => VArr (map VNum ns)
  end.

(** *** watch *)

(** The watcher of each prop, called by the host with the new value. *)
Definition watch (p : prop) (v : value) : M unit :=
  match p with
  | text => set_inst "text" v;; sync_inst
  | anchorX => set_inst "anchorX" v;; sync_inst
  | anchorY => set_inst "anchorY" v;; sync_inst
  | curveRadius => set_inst "curveRadius" v;; emit
  | direction => set_inst "direction" v;; sync_inst
  | font => set_inst "font" v;; sync_inst
  | fontSize => set_inst "fontSize" v;; sync_inst
  | letterSpacing => set_inst "letterSpacing" v;; sync_inst
  | lineHeight => set_inst "lineHeight" v;; sync_inst
  | maxWidth => set_inst "maxWidth" v;; sync_inst
  | overflowWrap => set_inst "overflowWrap" v;; sync_inst
  | textAlign => set_inst "textAlign" v;; sync_inst
  | textIndent => set_inst "textIndent" v;; sync_inst
  | whiteSpace => set_inst "whiteSpace" v;; sync_inst
  | color => set_inst "color" v;; emit
  | colorRanges => set_inst "colorRanges" v;; sync_inst
  | outlineWidth => set_inst "outlineWidth" v;; emit
  | outlineColor => set_inst "outlineColor" v;; emit
  | outlineOpacity => set_inst "outlineOpacity" v;; emit
  | outlineBlur => set_inst "outlineBlur" v;; emit
  | outlineOffsetX => set_inst "outlineOffsetX" v;; emit
  | outlineOffsetY => set_inst "outlineOffsetY" v;; emit
  | strokeWidth => set_inst "strokeWidth" v;; emit
  | strokeColor => set_inst "strokeColor" v;; emit
  | strokeOpacity => set_inst "strokeOpacity" v;; emit
  | fillOpacity => set_inst "fillOpacity" v;; emit
  | depthOffset => set_inst "depthOffset" v;; emit
  | clipRect =>
      l ← inst;
      parsed ← lift (nullableParser parseFloatArray v);
      assign l "clipRect" (of_numbers parsed);; emit
  | orientation => set_inst "orientation" v;; emit
  | glyphGeometryDetail => set_inst "glyphGeometryDetail" v;; emit
  | sdfGlyphSize => set_inst "sdfGlyphSize" v;; sync_inst
  end.

(** The handler of the immediate watcher on [inst]. *)
Definition inst_handler (i : loc) : M unit :=
  v ← this text; assign i "text" v;;
  v ← this anchorX; assign i "anchorX" v;;
  v ← this anchorY; assign i "anchorY" v;;
  v ← this curveRadius; assign i "curveRadius" v;;
  v ← this direction; assign i "direction" v;;
  v ← this font; assign i "font" v;;
  v ← this fontSize; assign i "fontSize" v;;
  v ← this letterSpacing; assign i "letterSpacing" v;;
  v ← this lineHeight; assign i "lineHeight" v;;
  v ← this maxWidth; assign i "maxWidth" v;;
  v ← this overflowWrap; assign i "overflowWrap" v;;
  v ← this textAlign; assign i "textAlign" v;;
  v ← this textIndent; assign i "textIndent" v;;
  v ← this whiteSpace; assign i "whiteSpace" v;;
  v ← this color; assign i "color" v;;
  v ← this colorRanges; assign i "colorRanges" v;;
  v ← this outlineWidth; assign i "outlineWidth" v;;
  v ← this outlineColor; assign i "outlineColor" v;;
  v ← this outlineOpacity; assign i "outlineOpacity" v;;
  v ← this outlineBlur; assign i "outlineBlur" v;;
  v ← this outlineOffsetX; assign i "outlineOffsetX" v;;
  v ← this outlineOffsetY; assign i "outlineOffsetY" v;;
  v ← this strokeWidth; assign i "strokeWidth" v;;
  v ← this strokeColor; assign i "strokeColor" v;;
  v ← this strokeOpacity; assign i "strokeOpacity" v;;
  v ← this fillOpacity; assign i "fillOpacity" v;;
  v ← this depthOffset; assign i "depthOffset" v;;
  v ← this clipRect; parsed ← lift (nullableParser parseFloatArray v);
  assign i "clipRect" (of_numbers parsed);;
  v ← this orientation; assign i "orientation" v;;
  v ← this glyphGeometryDetail; assign i "glyphGeometryDetail" v;;
  v ← this sdfGlyphSize; assign i "sdfGlyphSize" v;;
  sync i.

(** The [destroyed] hook; [this.inst !== undefined] holds of every
    object reference, so the guard always passes. *)
Definition destroyed : M unit :=
  l ← inst; dispose l.

(** *** The host's side *)

(** The prop values of a new component: what the parent passed, and the
    declared default where it passed nothing or [undefined]. *)
Definition initial_value (propsData : gmap string value) (p : prop) : value :=
  match propsData !! name p with
  | Some VUndefined | None => default (props p)
  | Some v => v
  end.

Definition initial_data (propsData : gmap string value) : gmap string value :=
  list_to_map (map (fun p => (name p, initial_value propsData p)) declared).

Definition initial (propsData : gmap string value) : vm :=
  {| data := initial_data propsData; cached_inst := None; heap := [];
     is_destroyed := false; trace := [] |}.

(** Construction: the watcher on [inst] is immediate, so the host reads
    [this.inst] and calls the handler with it at once. *)
Definition created : M unit :=
  l ← inst; inst_handler l.

Definition set_data (p : prop) (v : value) : M unit :=
  fun s => Return (tt, {| data := <[name p := v]> (data s);
                          cached_inst := cached_inst s; heap := heap s;
                          is_destroyed := is_destroyed s; trace := trace s |}).

Definition mark_destroyed : M unit :=
  fun s => Return (tt, {| data := data s; cached_inst := cached_inst s;
                          heap := heap s; is_destroyed := true;
                          trace := trace s |}).

Definition call_back (cb : callback) : M unit :=
  match cb with
  | EmitOnHost => emit
  end.

Fixpoint call_all (cbs : list callback) : M unit :=
  match cbs with
  | [] => mret tt
  | cb :: cbs' => call_back cb;; call_all cbs'
  end.

(** [dispatchEvent] on the [Text] at [l]: every listener registered for
    the event is called, in registration order. *)
Definition dispatch (l : loc) (event : string) : M unit :=
  fun s =>
    match heap s !! l with
    | Some t =>
        call_all (map snd (filter (fun '(e, _) => e = event) (listeners t))) s
    | None => Return (tt, s)
    end.

(** What can happen to a live component: the host reports a changed
    prop to its watcher, the text library finishes a sync of one of the
    [Text] objects, the host destroys the component.  The host checks a
    new prop value against [type] and [validator] only to report a
    mismatch; it stores the value and calls the watcher whatever the
    check said, and nothing in the watchers looks at a validator.  The
    host tears the watchers down on destruction and runs the
    [destroyed] hook once. *)
Inductive action : Type :=
  | Change (p : prop) (v : value)
  | SyncComplete (l : loc)
  | Destroy.

Definition step (a : action) : M unit :=
  fun s =>
    match a with
    | Change p v =>
        if is_destroyed s then Return (tt, s)
        else (set_data p v;; watch p v) s
    | SyncComplete l => dispatch l "synccomplete" s
    | Destroy =>
        if is_destroyed s then Return (tt, s)
        else (mark_destroyed;; destroyed) s
    end.

Fixpoint run (acts : list action) : M unit :=
  match acts with
  | [] => mret tt
  | a :: acts' => step a;; run acts'
  end.

(** The state after constructing a component from [propsData] and
    letting [acts] happen to it. *)
Definition life (propsData : gmap string value) (acts : list action)
    : completion vm :=
  match (created;; run acts) (initial propsData) with
  | Return (_, s) => Return s
  | Throw e => Throw e
  end.

(** The [Text] the component owns, and a field of it. *)
Definition owned (s : vm) : option Text :=
  l ← cached_inst s; heap s !! l.

Definition field (s : vm) (f : string) : option value :=
  t ← owned s; fields t !! f.

Fixpoint count_calls (P : call -> bool) (tr : list call) : nat :=
  match tr with
  | [] => 0
  | c :: tr' => (if P c then 1 else 0) + count_calls P tr'
  end.

Definition is_new (c : call) : bool :=
  match c with NewText _ => true | _ => false end.
Definition is_sync (c : call) : bool :=
  match c with Sync _ => true | _ => false end.
Definition is_emit (c : call) : bool :=
  match c with Emit => true | _ => false end.
Definition is_dispose (c : call) : bool :=
  match c with Dispose _ => true | _ => false end.
Definition is_assign (c : call) : bool :=
  match c with Assign _ _ _ => true | _ => false end.

End TroikaText.

(** ** The vocabulary of the specification *)

Module Spec.
Import JS Helpers TroikaText.

(** The coercion a prop's value goes through on its way to the field:
    the null-passing float-array parser for [clipRect], nothing for the
    others. *)
Definition coerce (p : prop) (v : value) : completion value :=
  match p with
  | clipRect => parsed ← nullableParser parseFloatArray v; mret (of_numbers parsed)
  | _ => Return v
  end.

(** The values on which the [clipRect] coercion is defined: [null],
    [undefined], strings and arrays. *)
Definition parsable (v : value) : bool :=
  eq_null v || typeof_string v || isArray v.

(** The attributes the specification names as layout-affecting:
    content, box, alignment and wrap, font, colour ranges. *)
Definition layout_affecting : list prop :=
  [text; anchorX; anchorY; direction; font; fontSize; letterSpacing;
   lineHeight; maxWidth; overflowWrap; textAlign; textIndent; whiteSpace;
   colorRanges].

(** The attributes it names as presentation-only: outline, stroke and
    fill styling, clipping, orientation, curvature, geometry detail. *)
Definition presentation_only : list prop :=
  [outlineWidth; outlineColor; outlineOpacity; outlineBlur; outlineOffsetX;
   outlineOffsetY; strokeWidth; strokeColor; strokeOpacity; fillOpacity;
   clipRect; orientation; curveRadius; glyphGeometryDetail].

(** Whether the watcher of a prop ends in [this.inst.sync()]. *)
Definition relayout (p : prop) : bool :=
  bool_decide (p ∈ layout_affecting ++ [sdfGlyphSize]).

Definition color_typed : list prop := [color; outlineColor; strokeColor].

(** The props whose declared type admits [null]. *)
Definition nullable : list prop :=
  [font; color; colorRanges; clipRect; sdfGlyphSize].

(** The order in which the [inst] watcher writes the fields. *)
Definition mirrored : list prop :=
  [text; anchorX; anchorY; curveRadius; direction; font; fontSize;
   letterSpacing; lineHeight; maxWidth; overflowWrap; textAlign; textIndent;
   whiteSpace; color; colorRanges; outlineWidth; outlineColor;
   outlineOpacity; outlineBlur; outlineOffsetX; outlineOffsetY; strokeWidth;
   strokeColor; strokeOpacity; fillOpacity; depthOffset; clipRect;
   orientation; glyphGeometryDetail; sdfGlyphSize].

(** What a prop value looks like once mirrored to the field. *)
Definition mirror (p : prop) (v : value) : value :=
  match coerce p v with
  | Return v' => v'
  | Throw _ => VUndefined
  end.

(** The state after [obj.field = v] on the [Text] at [l]. *)
Definition assigned (l : loc) (f : string) (v : value) (s : vm) : vm :=
  recorded (Assign l f v) (with_heap (alter (write f v) l) s).

Definition with_data (p : prop) (v : value) (s : vm) : vm :=
  {| data := <[name p := v]> (data s); cached_inst := cached_inst s;
     heap := heap s; is_destroyed := is_destroyed s; trace := trace s |}.

Definition with_cache (l : loc) (s : vm) : vm :=
  {| data := data s; cached_inst := Some l; heap := heap s;
     is_destroyed := is_destroyed s; trace := trace s |}.

(** The state after the first [this.inst]: a fresh [Text] at the next
    location, the completion listener on it, the reference cached. *)
Definition built (s : vm) : vm :=
  let l := length (heap s) in
  with_cache l
    (recorded (AddEventListener l "synccomplete")
       (with_heap (alter (listen "synccomplete" EmitOnHost) l)
          (recorded (NewText l) (with_heap (λ h, h ++ [fresh]) s)))).

(** The fields of the props [ps] written with the values [vals], on a
    [Text] and on the [Text] at [l] of a state. *)
Definition write_all (vals : prop → value) (ps : list prop) (t : Text) : Text :=
  foldl (λ acc p, write (name p) (vals p) acc) t ps.

Definition assign_all (l : loc) (vals : prop → value) (ps : list prop)
    (s : vm) : vm :=
  foldl (λ acc p, assigned l (name p) (vals p) acc) s ps.

(** The state after the [inst] watcher has written every field of the
    [Text] at [l] from the props of [s0]. *)
Definition mirrored_all (l : loc) (s0 s : vm) : vm :=
  assign_all l (λ p, mirror p (value_of s0 p)) mirrored s.

Definition with_destroyed (s : vm) : vm :=
  {| data := data s; cached_inst := cached_inst s; heap := heap s;
     is_destroyed := true; trace := trace s |}.

(** The state of a component just constructed from [propsData]. *)
Definition born (propsData : gmap string value) : vm :=
  recorded (Sync 0)
    (mirrored_all 0 (initial propsData) (built (initial propsData))).

(** What holds of a component from its construction on: one [Text], at
    location 0, cached, with the completion listener; constructed once;
    disposed once if the component is destroyed and not at all before. *)
Definition inv (s : vm) : Prop :=
  cached_inst s = Some 0 ∧
  (∃ t, heap s = [t] ∧ listeners t = [("synccomplete", EmitOnHost)]) ∧
  count_calls is_new (trace s) = 1 ∧
  count_calls is_dispose (trace s) = (if is_destroyed s then 1 else 0).

Definition is_Destroy (a : action) : bool :=
  match a with Destroy => true | _ => false end.

(** An action whose watcher cannot throw: a new [clipRect] is [null],
    a string or an array. *)
Definition well_typed (a : action) : bool :=
  match a with
  | Change clipRect v => parsable v
  | _ => true
  end.

(** The call a watcher ends in. *)
Definition closing (p : prop) (l : loc) : call :=
  if relayout p then Sync l else Emit.

(** The component has constructed its [Text] at [l], with the completion
    listener on it; it is live while the host has not destroyed it. *)
Definition constructed (s : vm) (l : loc) : Prop :=
  cached_inst s = Some l ∧
  ∃ t, heap s !! l = Some t ∧ listeners t = [("synccomplete", EmitOnHost)].

Definition live (s : vm) (l : loc) : Prop :=
  constructed s l ∧ is_destroyed s = false.

(** [v.isColor] is set. *)
Definition has_isColor (v : value) : bool :=
  match get v "isColor" with
  | Return flag => truthy flag
  | Throw _ => false
  end.

(** A colour of a recognized shape: a number, a string, an object
    flagged as a colour, or nothing at all. *)
Definition recognized_color (v : value) : bool :=
  eq_null v || typeof_number v || typeof_string v || has_isColor v.

(** The calls made in a life, when the life ends normally. *)
Definition trace_after (propsData : gmap string value) (acts : list action)
    : option (list call) :=
  match life propsData acts with
  | Return s => Some (trace s)
  | Throw _ => None
  end.

(** A field of the [Text] after a life, when the life ends normally. *)
Definition field_after (propsData : gmap string value) (acts : list action)
    (f : string) : option value :=
  match life propsData acts with
  | Return s => field s f
  | Throw _ => None
  end.

Fixpoint all_white_space (s : string) : bool :=
  match s with
  | EmptyString => true
  | String c s' => is_white_space c && all_white_space s'
  end.

(** A numeric string: a decimal literal and nothing else, white space
    around it apart. *)
Definition numeric_string (s : string) : bool :=
  match str_decimal_literal (trim_start s) with
  | Some (_, rest) => all_white_space rest
  | None => false
  end.

Definition comma_separated_numeric (s : string) : bool :=
  forallb numeric_string (split "," s).

Definition numeric (v : value) : bool :=
  match v with
  | VNum n => negb (is_NaN n)
  | _ => false
  end.

(** The shapes the specification permits for an array-typed attribute:
    a comma-separated numeric string, or a sequence whose every element
    is numeric. *)
Definition permitted_array (v : value) : bool :=
  match v with
  | VStr s => comma_separated_numeric s
  | VArr items => forallb numeric items
  | _ => false
  end.

(** How often a character occurs in a string. *)
Fixpoint occurrences (c : ascii) (s : string) : nat :=
  match s with
  | EmptyString => 0
  | String c' s' => (if Ascii.eqb c' c then 1 else 0) + occurrences c s'
  end.

(** How many of the actions satisfy a test. *)
Fixpoint count_actions (P : action → bool) (acts : list action) : nat :=
  match acts with
  | [] => 0
  | a :: acts' => (if P a then 1 else 0) + count_actions P acts'
  end.

(** A change of a prop whose watcher ends in [sync], a change of one
    whose watcher ends in [emit], a completed sync of the [Text] at
    location 0. *)
Definition is_relayout_change (a : action) : bool :=
  match a with Change p _ => relayout p | _ => false end.

Definition is_redraw_change (a : action) : bool :=
  match a with Change p _ => negb (relayout p) | _ => false end.

Definition is_change (a : action) : bool :=
  match a with Change _ _ => true | _ => false end.

Definition is_completion (a : action) : bool :=
  match a with SyncComplete 0 => true | _ => false end.

(** A decimal digit. *)
Definition small (d : N) : Prop := (d < 10)%N.

(** The string does not begin with a decimal digit. *)
Definition no_digit_head (s : string) : Prop :=
  match s with
  | String c _ => digit_of c = None
  | EmptyString => True
  end.

(** An ExponentPart as [Number::toString] prints it. *)
Definition exp_string (x : Z) : string :=
  "e" +:+ (if (x <? 0)%Z then "-" else "+") +:+
  string_of_digits (digits_of_N (Z.abs_N x)).

(** The same number in the form [parseFloat] produces: no trailing zero
    in the mantissa, and the zero without a sign. *)
Definition normalize (x : number) : number :=
  match x with
  | Fin neg m e =>
      if N.eqb m 0 then Fin false 0 0 else mk_fin neg (digits_of_N m) e
  | _ => x
  end.

(** The [Text] mirrors the props: every declared field holds the
    coerced value of its prop. *)
Definition mirrors (s : vm) : Prop :=
  ∀ p, field s (name p) = Some (mirror p (value_of s p)).

(** A call that, if it is an assignment, writes a declared field of the
    [Text] at [l]. *)
Definition declared_write (l : loc) (c : call) : Prop :=
  match c with
  | Assign l' f _ => l' = l ∧ ∃ p, f = name p
  | _ => True
  end.

(** The locations of the [Text]s constructed in a trace, and of those
    disposed of, in the order of the calls. *)
Definition constructed_at (tr : list call) : list loc :=
  omap (λ c, match c with NewText l => Some l | _ => None end) tr.

Definition disposed_at (tr : list call) : list loc :=
  omap (λ c, match c with Dispose l => Some l | _ => None end) tr.

(** Every construction and every disposal in the trace is of the
    [Text] at [l]: it was constructed once, and disposed of once if
    the component is destroyed and not at all before. *)
Definition accounted (l : loc) (s : vm) : Prop :=
  constructed_at (trace s) = [l] ∧
  disposed_at (trace s) = (if is_destroyed s then [l] else []).

(** Every [clipRect] reported before the component is destroyed is
    [null], a string or an array. *)
Fixpoint well_typed_life (acts : list action) : bool :=
  match acts with
  | [] => true
  | Destroy :: _ => true
  | a :: acts' => well_typed a && well_typed_life acts'
  end.

End Spec.

(** ** Properties of the helper functions *)

Module HelperFacts.
Import JS Helpers TroikaText Spec.

Lemma str_decimal_literal_not_NaN s n rest :
  str_decimal_literal s = Some (n, rest) → is_NaN n = false.
Proof.
  unfold str_decimal_literal.
  destruct (parse_sign s) as [neg r].
  destruct (starts_with "Infinity" r); [by intros [= <- _]|].
  destruct (take_digits r) as [di r1].
  destruct (match r1 with String "." r' => take_digits r' | _ => ([], r1) end)
    as [df r2].
  destruct (di ++ df) as [|d ds]; [done|].
  destruct (parse_exponent r2) as [x r3]. intros [= <- _].
  unfold mk_fin. by case_match.
Qed.

Lemma numeric_string_parses s :
  numeric_string s = true → is_NaN (parse_float s) = false.
Proof.
  unfold numeric_string, parse_float.
  destruct (str_decimal_literal (trim_start s)) as [[n rest]|] eqn:E; [|done].
  intros _. by eapply str_decimal_literal_not_NaN.
Qed.

Lemma validateFloatArray_string s :
  validateFloatArray (VStr s) =
  Return (VBool (forallb (λ piece, negb (is_NaN (parse_float piece))) (split "," s))).
Proof.
  unfold validateFloatArray. simpl. f_equal. f_equal.
  induction (split "," s) as [|piece pieces IH]; [done|].
  simpl. by rewrite IH.
Qed.

Lemma validateFloatArray_array items :
  validateFloatArray (VArr items) =
  Return (VBool (forallb (λ item, negb (is_NaN (parseFloat item))) items)).
Proof. reflexivity. Qed.

Lemma validateFloatArray_other v :
  typeof_string v = false → isArray v = false → throws (validateFloatArray v).
Proof. by destruct v. Qed.

Lemma parseFloatArray_string s :
  parseFloatArray (VStr s) = Return (map parse_float (split "," s)).
Proof.
  unfold parseFloatArray. simpl. f_equal.
  induction (split "," s) as [|piece pieces IH]; [done|].
  simpl. by rewrite IH.
Qed.

Lemma validateColor_accepts v :
  accepts validateColor v = typeof_number v || typeof_string v || has_isColor v.
Proof.
  unfold accepts, validateColor, has_isColor, or_else.
  destruct v as [| |b|n|s|items|fs]; simpl; try done.
  generalize (option.default VUndefined (assoc "isColor" fs)); intros flag.
  destruct (truthy flag) eqn:E; simpl; by rewrite ?E.
Qed.

(** The result of [validateColor] is the [isColor] flag itself when
    that is truthy, boolean or not. *)
Example validateColor_returns_flag :
  validateColor (VObj [("isColor", VNum one)]) = Return (VNum one).
Proof. reflexivity. Qed.

(** *** A number other than NaN prints as something [parseFloat] reads *)

Lemma digits_of_uint_small u : Forall (λ d, (d < 10)%N) (digits_of_uint u).
Proof. induction u; simpl; constructor; (lia || done). Qed.

Lemma digits_of_uint_zero u :
  Forall (λ d, d = 0%N) (digits_of_uint u) → N.of_uint u = 0%N.
Proof.
  induction u; simpl; intros H; inversion H; subst; try done.
  unfold N.of_uint in *. simpl. auto.
Qed.

Lemma drop_zeros_nil ds : drop_zeros ds = [] → Forall (λ d, d = 0%N) ds.
Proof.
  induction ds as [|d ds IH]; simpl; [constructor|].
  destruct d; [|done]. intros H. constructor; auto.
Qed.

Lemma drop_zeros_small ds :
  Forall (λ d, (d < 10)%N) ds → Forall (λ d, (d < 10)%N) (drop_zeros ds).
Proof.
  induction 1 as [|d ds Hd Hds IH]; simpl; [constructor|].
  destruct d; [done|]. by constructor.
Qed.

Lemma significant_digits m :
  m ≠ 0%N →
  ∃ d ds, rev (drop_zeros (rev (digits_of_N m))) = d :: ds ∧
          Forall (λ d, (d < 10)%N) (d :: ds).
Proof.
  intros Hm. unfold digits_of_N.
  pose proof (digits_of_uint_small (N.to_uint m)) as Hsmall.
  assert (Forall (λ d, (d < 10)%N)
            (rev (drop_zeros (rev (digits_of_uint (N.to_uint m)))))) as Hsig.
  { apply List.Forall_rev, drop_zeros_small, List.Forall_rev, Hsmall. }
  destruct (rev (drop_zeros (rev (digits_of_uint (N.to_uint m)))))
    as [|d ds] eqn:E; [|eauto].
  exfalso. apply Hm.
  rewrite <-(DecimalN.Unsigned.of_to m). apply digits_of_uint_zero.
  apply (f_equal (@rev N)) in E. rewrite rev_involutive in E. simpl in E.
  apply drop_zeros_nil, List.Forall_rev in E.
  by rewrite rev_involutive in E.
Qed.

Lemma literal_of_digit c rest d :
  digit_of c = Some d →
  ∃ n r, str_decimal_literal (String c rest) = Some (n, r).
Proof.
  intros Hc.
  assert (parse_sign (String c rest) = (false, String c rest)) as Hsign.
  { destruct c as [[] [] [] [] [] [] [] []]; try done. }
  assert (starts_with "Infinity" (String c rest) = false) as Hinf.
  { destruct c as [[] [] [] [] [] [] [] []]; try done. }
  unfold str_decimal_literal. rewrite Hsign, Hinf. simpl. rewrite Hc.
  destruct (take_digits rest) as [ds r1].
  destruct (match r1 with String "." r' => take_digits r' | _ => ([], r1) end)
    as [df r2].
  simpl. destruct (parse_exponent r2) as [x r3]. eauto.
Qed.

Lemma digit_of_digit_char d : (d < 10)%N → digit_of (digit_char d) = Some d.
Proof.
  intros Hd.
  assert (d ∈ [0; 1; 2; 3; 4; 5; 6; 7; 8; 9]%N) as Hin.
  { rewrite !elem_of_cons. lia. }
  repeat (apply elem_of_cons in Hin as [->|Hin]; [done|]).
  by apply elem_of_nil in Hin.
Qed.

Lemma parse_float_digit d rest :
  (d < 10)%N → is_NaN (parse_float (String (digit_char d) rest)) = false.
Proof.
  intros Hd. pose proof (digit_of_digit_char d Hd) as Hc.
  destruct (literal_of_digit _ rest _ Hc) as (n & r & Hlit).
  unfold parse_float.
  assert (trim_start (String (digit_char d) rest) = String (digit_char d) rest)
    as ->.
  { simpl. destruct (is_white_space (digit_char d)) eqn:E; [|done].
    exfalso. revert Hc E. unfold digit_of, is_white_space.
    generalize (N_of_ascii (digit_char d)). intros k.
    destruct ((48 <=? k)%N && (k <=? 57)%N) eqn:Hk; [|done]. intros _.
    rewrite andb_true_iff, !N.leb_le in Hk.
    rewrite orb_true_iff, andb_true_iff, !N.leb_le, N.eqb_eq. lia. }
  rewrite Hlit. by eapply str_decimal_literal_not_NaN.
Qed.

Lemma parse_float_minus_digit d rest :
  (d < 10)%N →
  is_NaN (parse_float (String "-" (String (digit_char d) rest))) = false.
Proof.
  intros Hd. pose proof (digit_of_digit_char d Hd) as Hc.
  unfold parse_float. simpl trim_start.
  unfold str_decimal_literal. simpl parse_sign. cbv iota beta.
  destruct (literal_of_digit _ rest _ Hc) as (n & r & Hlit).
  unfold str_decimal_literal in Hlit.
  assert (parse_sign (String (digit_char d) rest)
          = (false, String (digit_char d) rest)) as Hsign.
  { generalize Hc. generalize (digit_char d).
    intros c; destruct c as [[] [] [] [] [] [] [] []]; try done. }
  rewrite Hsign in Hlit.
  destruct (starts_with "Infinity" (String (digit_char d) rest)); [done|].
  destruct (take_digits (String (digit_char d) rest)) as [di r1].
  destruct (match r1 with String "." r' => take_digits r' | _ => ([], r1) end)
    as [df r2].
  destruct (di ++ df); [done|].
  destruct (parse_exponent r2). unfold mk_fin. by case_match.
Qed.

(** Every layout of [Number::toString] begins with a digit. *)
Lemma positive_to_string_digit m e :
  m ≠ 0%N →
  ∃ d rest, (d < 10)%N ∧ positive_to_string m e = String (digit_char d) rest.
Proof.
  intros Hm. destruct (significant_digits m Hm) as (d & ds & Hsig & Hsmall).
  inversion Hsmall as [|? ? Hd _]; subst.
  unfold positive_to_string. rewrite Hsig. cbv zeta.
  generalize (Z.of_nat (length (digits_of_N m)) + e)%Z. intros n.
  destruct ((Z.of_nat (length (d :: ds)) <=? n) && (n <=? 21))%Z;
    [simpl; eauto|].
  destruct ((0 <? n) && (n <=? 21))%Z eqn:En.
  { destruct (Z.to_nat n) as [|k] eqn:Ek; [lia|]. simpl. eauto. }
  destruct ((-6 <? n) && (n <=? 0))%Z.
  { exists 0%N. eexists. split; [lia|]. reflexivity. }
  simpl. eauto.
Qed.

Lemma parseFloat_number n :
  is_NaN n = false → is_NaN (parseFloat (VNum n)) = false.
Proof.
  destruct n as [|neg|neg m e]; [done| |]; intros _.
  - by destruct neg.
  - unfold parseFloat.
    change (to_string (VNum (Fin neg m e))) with (number_to_string (Fin neg m e)).
    unfold number_to_string.
    destruct (N.eqb m 0) eqn:E; [done|]. apply N.eqb_neq in E.
    destruct (positive_to_string_digit m e E) as (d & rest & Hd & ->).
    destruct neg; cbn [String.append].
    + by apply parse_float_minus_digit.
    + by apply parse_float_digit.
Qed.

End HelperFacts.

(** ** Properties of the component's operations *)

Module ComponentFacts.
Import JS Helpers TroikaText Spec.

Lemma assign_eq l f v s : assign l f v s = Return (tt, assigned l f v s).
Proof. reflexivity. Qed.

Lemma inst_cached s l : cached_inst s = Some l → inst s = Return (l, s).
Proof. intros H. unfold inst. by rewrite H. Qed.

Lemma bind_eq {A B} (m : M A) (k : A → M B) s a s' :
  m s = Return (a, s') → (m ≫= k) s = k a s'.
Proof. intros H. unfold mbind, M_bind. by rewrite H. Qed.

Lemma set_inst_eq s l f v :
  cached_inst s = Some l → set_inst f v s = Return (tt, assigned l f v s).
Proof.
  intros H. unfold set_inst. by rewrite (bind_eq _ _ _ _ _ (inst_cached s l H)).
Qed.

Lemma sync_inst_eq s l :
  cached_inst s = Some l → sync_inst s = Return (tt, recorded (Sync l) s).
Proof.
  intros H. unfold sync_inst. by rewrite (bind_eq _ _ _ _ _ (inst_cached s l H)).
Qed.

(** A watcher on a component that has its [Text]: the coerced value is
    assigned to the field of the prop's name, then comes the closing
    call; nothing happens when the coercion throws. *)
Lemma watch_eq s l p v :
  cached_inst s = Some l →
  watch p v s =
  match coerce p v with
  | Return v' => Return (tt, recorded (closing p l) (assigned l (name p) v' s))
  | Throw e => Throw e
  end.
Proof.
  intros H.
  assert (∀ f v', cached_inst (assigned l f v' s) = Some l) as H' by done.
  destruct p;
    try (unfold watch;
         rewrite (bind_eq _ _ _ _ _ (set_inst_eq s l _ v H));
         first [apply sync_inst_eq, H' | reflexivity]).
  unfold watch, coerce.
  rewrite (bind_eq _ _ _ _ _ (inst_cached s l H)).
  unfold lift, mbind at 1, M_bind.
  by destruct (nullableParser parseFloatArray v).
Qed.

Lemma parsable_returns v :
  parsable v = true → ∃ r, nullableParser parseFloatArray v = Return r.
Proof.
  destruct v; try done; intros _; unfold nullableParser; simpl; eauto.
Qed.

Lemma unparsable_throws v :
  parsable v = false → ∃ e, nullableParser parseFloatArray v = Throw e.
Proof. destruct v; try done; intros _; unfold nullableParser; simpl; eauto. Qed.

Lemma coerce_returns p v :
  (p = clipRect → parsable v = true) → coerce p v = Return (mirror p v).
Proof.
  intros H. unfold mirror.
  destruct p; try done. unfold coerce.
  destruct (parsable_returns v (H eq_refl)) as [r ->]. done.
Qed.

Lemma inst_first s :
  cached_inst s = None → inst s = Return (length (heap s), built s).
Proof. intros H. unfold inst. by rewrite H. Qed.

Ltac run_inst_handler :=
  unfold inst_handler, this, lift, value_of in *;
  cbv [assign modify_heap record mbind M_bind recorded with_heap assigned
       data cached_inst heap is_destroyed trace] in *.

Lemma inst_handler_eq l s :
  parsable (value_of s clipRect) = true →
  inst_handler l s = Return (tt, recorded (Sync l) (mirrored_all l s s)).
Proof.
  intros H. destruct (parsable_returns _ H) as [r Hr].
  unfold mirrored_all, assign_all, mirrored, foldl, mirror, coerce. rewrite Hr.
  destruct s as [d c h b tr]. run_inst_handler.
  rewrite Hr. reflexivity.
Qed.

Lemma inst_handler_throws l s :
  parsable (value_of s clipRect) = false → throws (inst_handler l s).
Proof.
  intros H. destruct (unparsable_throws _ H) as [e He].
  destruct s as [d c h b tr]. run_inst_handler.
  by rewrite He.
Qed.

(** *** Writing a list of fields *)

Lemma name_inj p q : name p = name q → p = q.
Proof. destruct p, q; (reflexivity || discriminate). Qed.

Ltac listed :=
  repeat first [apply list_elem_of_here | apply list_elem_of_further].

Lemma mirrored_all_props p : p ∈ mirrored.
Proof. unfold mirrored. destruct p; listed. Qed.

Lemma write_all_listeners vals ps t :
  listeners (write_all vals ps t) = listeners t.
Proof.
  induction ps as [|q ps IH] using rev_ind; [done|].
  unfold write_all in *. by rewrite foldl_snoc.
Qed.

Lemma write_all_ext vals vals' ps t :
  (∀ p, vals p = vals' p) → write_all vals ps t = write_all vals' ps t.
Proof.
  intros H. induction ps as [|q ps IH] using rev_ind; [done|].
  unfold write_all in *. by rewrite !foldl_snoc, IH, H.
Qed.

Lemma write_all_lookup vals ps t p :
  p ∈ ps → fields (write_all vals ps t) !! name p = Some (vals p).
Proof.
  induction ps as [|q ps IH] using rev_ind; [by intros ?%elem_of_nil|].
  unfold write_all in *. rewrite foldl_snoc. simpl.
  intros [Hin| ->%list_elem_of_singleton]%elem_of_app.
  - destruct (decide (q = p)) as [->|Hne]; [apply lookup_insert_eq|].
    rewrite lookup_insert_ne; [auto|]. intros ?%name_inj. done.
  - apply lookup_insert_eq.
Qed.

Lemma assign_all_eq l vals ps s :
  assign_all l vals ps s =
  {| data := data s; cached_inst := cached_inst s;
     heap := alter (write_all vals ps) l (heap s);
     is_destroyed := is_destroyed s;
     trace := trace s ++ map (λ p, Assign l (name p) (vals p)) ps |}.
Proof.
  revert s. induction ps as [|p ps IH]; intros s.
  - destruct s. unfold assign_all, write_all. simpl.
    rewrite app_nil_r. f_equal. symmetry. by apply list_alter_id.
  - unfold assign_all, write_all in *. simpl foldl at 1. rewrite IH.
    unfold assigned, recorded, with_heap. simpl.
    rewrite <-app_assoc. f_equal.
    by rewrite list_alter_alter_eq.
Qed.

(** *** Construction *)

Lemma value_of_initial pd p : value_of (initial pd) p = initial_value pd p.
Proof.
  unfold value_of, initial, initial_data. cbn [data].
  generalize (initial_value pd). intros iv.
  destruct p; vm_compute; reflexivity.
Qed.

Lemma created_eq pd :
  parsable (initial_value pd clipRect) = true →
  created (initial pd) = Return (tt, born pd).
Proof.
  intros H. unfold created.
  rewrite (bind_eq _ _ _ _ _ (inst_first (initial pd) eq_refl)).
  rewrite inst_handler_eq; [done|].
  by rewrite <-value_of_initial in H.
Qed.

Lemma created_throws pd :
  parsable (initial_value pd clipRect) = false → throws (created (initial pd)).
Proof.
  intros H. unfold created.
  rewrite (bind_eq _ _ _ _ _ (inst_first (initial pd) eq_refl)).
  apply inst_handler_throws. by rewrite <-value_of_initial in H.
Qed.

(** The [Text] of a component just constructed. *)
Lemma born_eq pd :
  born pd =
  {| data := initial_data pd; cached_inst := Some 0;
     heap := [write_all (λ p, mirror p (initial_value pd p)) mirrored
                (listen "synccomplete" EmitOnHost fresh)];
     is_destroyed := false;
     trace := [NewText 0; AddEventListener 0 "synccomplete"] ++
              map (λ p, Assign 0 (name p) (mirror p (initial_value pd p)))
                mirrored ++
              [Sync 0] |}.
Proof.
  unfold born, mirrored_all. rewrite assign_all_eq.
  unfold recorded, built, with_cache, with_heap.
  cbn [data cached_inst heap is_destroyed trace initial length app].
  f_equal.
Qed.

(** *** Steps *)

Lemma count_calls_app P tr tr' :
  count_calls P (tr ++ tr') = count_calls P tr + count_calls P tr'.
Proof. induction tr as [|c tr IH]; simpl; [done|]. rewrite IH. lia. Qed.

Lemma step_change s l p v :
  cached_inst s = Some l → is_destroyed s = false →
  step (Change p v) s =
  match coerce p v with
  | Return v' =>
      Return (tt, recorded (closing p l) (assigned l (name p) v' (with_data p v s)))
  | Throw e => Throw e
  end.
Proof.
  intros Hc Hd. unfold step. rewrite Hd.
  change ((set_data p v;; watch p v) s) with (watch p v (with_data p v s)).
  by apply watch_eq.
Qed.

Lemma step_change_destroyed s p v :
  is_destroyed s = true → step (Change p v) s = Return (tt, s).
Proof. intros Hd. unfold step. by rewrite Hd. Qed.

Lemma step_destroy s l :
  cached_inst s = Some l → is_destroyed s = false →
  step Destroy s = Return (tt, recorded (Dispose l) (with_destroyed s)).
Proof.
  intros Hc Hd. unfold step. rewrite Hd.
  change ((mark_destroyed;; destroyed) s) with (destroyed (with_destroyed s)).
  unfold destroyed.
  by rewrite (bind_eq _ _ _ _ _ (inst_cached (with_destroyed s) l Hc)).
Qed.

Lemma step_destroy_destroyed s :
  is_destroyed s = true → step Destroy s = Return (tt, s).
Proof. intros Hd. unfold step. by rewrite Hd. Qed.

Lemma call_all_eq cbs s :
  ∃ s', call_all cbs s = Return (tt, s') ∧
        data s' = data s ∧ cached_inst s' = cached_inst s ∧
        heap s' = heap s ∧ is_destroyed s' = is_destroyed s ∧
        trace s' = trace s ++ repeat Emit (length cbs).
Proof.
  revert s. induction cbs as [|[] cbs IH]; intros s.
  - exists s. simpl. by rewrite app_nil_r.
  - destruct (IH (recorded Emit s)) as (s' & Hs' & ? & ? & ? & ? & Htr).
    exists s'. split_and!; try done.
    rewrite Htr. simpl. by rewrite <-app_assoc.
Qed.

(** A completed sync changes nothing but the trace, to which it adds
    one [Emit] per completion listener. *)
Lemma step_synccomplete_frame s l :
  ∃ s' n, step (SyncComplete l) s = Return (tt, s') ∧
        data s' = data s ∧ cached_inst s' = cached_inst s ∧
        heap s' = heap s ∧ is_destroyed s' = is_destroyed s ∧
        trace s' = trace s ++ repeat Emit n.
Proof.
  unfold step, dispatch. destruct (heap s !! l) as [t|].
  - destruct (call_all_eq
      (map snd (filter (λ '(e, _), e = "synccomplete") (listeners t))) s)
      as (s' & ? & ?). eauto.
  - exists s, 0. simpl. by rewrite app_nil_r.
Qed.

Lemma step_synccomplete s l t :
  heap s !! l = Some t → listeners t = [("synccomplete", EmitOnHost)] →
  step (SyncComplete l) s = Return (tt, recorded Emit s).
Proof. intros Ht Hl. unfold step, dispatch. by rewrite Ht, Hl. Qed.

(** *** The invariant *)

Lemma born_inv pd : inv (born pd).
Proof.
  rewrite born_eq. unfold inv. cbn [cached_inst heap trace is_destroyed].
  split_and!; [done| |done|done].
  eexists. split; [done|]. by rewrite write_all_listeners.
Qed.

Lemma count_repeat_Emit P n :
  P Emit = false → count_calls P (repeat Emit n) = 0.
Proof. intros H. induction n; simpl; [done|]. by rewrite H. Qed.

Lemma step_inv a s s' : inv s → step a s = Return (tt, s') → inv s'.
Proof.
  intros (Hc & (t & Hh & Hl) & Hnew & Hdis) Hstep.
  destruct a as [p v|l|].
  - destruct (is_destroyed s) eqn:Hd.
    { rewrite step_change_destroyed in Hstep by done.
      injection Hstep as <-. unfold inv. rewrite Hd. eauto 10. }
    rewrite (step_change s 0) in Hstep by done.
    destruct (coerce p v) as [v'|]; [|done]. injection Hstep as <-.
    unfold inv. cbn [cached_inst heap trace is_destroyed recorded assigned
      with_heap with_data].
    rewrite Hh, Hd, <-app_assoc, !count_calls_app, Hnew, Hdis. simpl.
    split_and!; [done|eauto| |].
    + by unfold closing; destruct (relayout p).
    + by unfold closing; destruct (relayout p).
  - destruct (step_synccomplete_frame s l)
      as (s1 & n & Hs1 & ? & Hc1 & Hh1 & Hd1 & Htr1).
    rewrite Hs1 in Hstep. injection Hstep as <-.
    unfold inv. rewrite Hc1, Hh1, Hd1, Htr1, !count_calls_app,
      !count_repeat_Emit by done.
    rewrite !Nat.add_0_r. eauto 10.
  - destruct (is_destroyed s) eqn:Hd.
    { rewrite step_destroy_destroyed in Hstep by done.
      injection Hstep as <-. unfold inv. rewrite Hd. eauto 10. }
    rewrite (step_destroy s 0) in Hstep by done. injection Hstep as <-.
    unfold inv. cbn [cached_inst heap trace is_destroyed recorded with_destroyed].
    rewrite !count_calls_app, Hnew, Hdis. simpl. eauto 10.
Qed.

Lemma run_inv acts s s' : inv s → run acts s = Return (tt, s') → inv s'.
Proof.
  revert s. induction acts as [|a acts IH]; intros s Hinv.
  - by intros [= <-].
  - simpl. unfold mbind, M_bind.
    destruct (step a s) as [[[] s1]|] eqn:Hstep; [|done].
    intros Hrun. eapply IH; [|done]. by eapply step_inv.
Qed.

Lemma life_eq pd acts :
  parsable (initial_value pd clipRect) = true →
  life pd acts =
  match run acts (born pd) with
  | Return (_, s) => Return s
  | Throw e => Throw e
  end.
Proof.
  intros H. unfold life. by rewrite (bind_eq _ _ _ _ _ (created_eq pd H)).
Qed.

Lemma life_parsable pd acts s :
  life pd acts = Return s → parsable (initial_value pd clipRect) = true.
Proof.
  destruct (parsable (initial_value pd clipRect)) eqn:H; [done|].
  pose proof (created_throws pd H) as Ht.
  unfold life, mbind, M_bind.
  by destruct (created (initial pd)) as [[[] s1]|].
Qed.

Lemma life_inv pd acts s : life pd acts = Return s → inv s.
Proof.
  intros Hlife. pose proof (life_parsable _ _ _ Hlife) as H.
  rewrite life_eq in Hlife by done.
  destruct (run acts (born pd)) as [[[] s1]|] eqn:Hrun; [|done].
  injection Hlife as <-. eapply run_inv; [apply born_inv|done].
Qed.

Lemma step_returns a s :
  inv s → well_typed a = true → ∃ s', step a s = Return (tt, s').
Proof.
  intros (Hc & _) Ha. destruct a as [p v|l|].
  - destruct (is_destroyed s) eqn:Hd.
    { rewrite step_change_destroyed by done. eauto. }
    rewrite (step_change s 0) by done.
    rewrite (coerce_returns p v); [eauto|]. by intros ->.
  - destruct (step_synccomplete_frame s l) as (s' & n & -> & _). eauto.
  - destruct (is_destroyed s) eqn:Hd.
    { rewrite step_destroy_destroyed by done. eauto. }
    rewrite (step_destroy s 0) by done. eauto.
Qed.

Lemma run_returns acts s :
  inv s → forallb well_typed acts = true → ∃ s', run acts s = Return (tt, s').
Proof.
  revert s. induction acts as [|a acts IH]; intros s Hinv Hacts; [by eexists|].
  simpl in Hacts. apply andb_prop in Hacts as [Ha Hacts].
  destruct (step_returns a s Hinv Ha) as [s1 Hs1].
  destruct (IH s1 (step_inv _ _ _ Hinv Hs1) Hacts) as [s' Hs'].
  exists s'. simpl. by rewrite (bind_eq _ _ _ _ _ Hs1).
Qed.

(** A component constructed with a well-typed [clipRect] and sent only
    well-typed changes never throws. *)
Lemma life_returns pd acts :
  parsable (initial_value pd clipRect) = true →
  forallb well_typed acts = true →
  ∃ s, life pd acts = Return s.
Proof.
  intros H Hacts. rewrite life_eq by done.
  destruct (run_returns acts (born pd) (born_inv pd) Hacts) as [s ->]. eauto.
Qed.

Lemma step_destroyed a s s' :
  inv s → step a s = Return (tt, s') →
  is_destroyed s' = is_destroyed s || is_Destroy a.
Proof.
  intros (Hc & _) Hstep. destruct a as [p v|l|]; simpl.
  - rewrite orb_false_r. destruct (is_destroyed s) eqn:Hd.
    { rewrite step_change_destroyed in Hstep by done. by injection Hstep as <-. }
    rewrite (step_change s 0) in Hstep by done.
    destruct (coerce p v); [|done]. by injection Hstep as <-.
  - rewrite orb_false_r.
    destruct (step_synccomplete_frame s l) as (s2 & n & Hs2 & _ & _ & _ & Hd & _).
    rewrite Hs2 in Hstep. by injection Hstep as <-.
  - rewrite orb_true_r. destruct (is_destroyed s) eqn:Hd.
    { rewrite step_destroy_destroyed in Hstep by done. by injection Hstep as <-. }
    rewrite (step_destroy s 0) in Hstep by done. by injection Hstep as <-.
Qed.

Lemma run_destroyed acts s s' :
  inv s → run acts s = Return (tt, s') →
  is_destroyed s' = is_destroyed s || existsb is_Destroy acts.
Proof.
  revert s. induction acts as [|a acts IH]; intros s Hinv.
  - intros [= <-]. simpl. by rewrite orb_false_r.
  - simpl. unfold mbind, M_bind.
    destruct (step a s) as [[[] s1]|] eqn:Hstep; [|done].
    intros Hrun. rewrite (IH s1 (step_inv _ _ _ Hinv Hstep) Hrun).
    rewrite (step_destroyed _ _ _ Hinv Hstep). by rewrite orb_assoc.
Qed.

(** A component that has not been destroyed is live, with its [Text]
    at location 0. *)
Lemma inv_live s : inv s → is_destroyed s = false → live s 0.
Proof.
  intros (Hc & (t & Hh & Hl) & _) Hd. split; [split; [done|]|done].
  exists t. by rewrite Hh.
Qed.

Lemma life_live pd acts s :
  life pd acts = Return s → existsb is_Destroy acts = false → live s 0.
Proof.
  intros Hs Hacts. apply inv_live; [by eapply life_inv|].
  pose proof (life_parsable _ _ _ Hs) as Hclip.
  rewrite life_eq in Hs by done.
  destruct (run acts (born pd)) as [[[] s1]|] eqn:Hrun; [|done].
  injection Hs as <-.
  rewrite (run_destroyed _ _ _ (born_inv pd) Hrun), Hacts.
  by rewrite born_eq.
Qed.

(** *** Which [Text] is constructed and which is disposed of *)

Lemma constructed_at_app tr tr' :
  constructed_at (tr ++ tr') = constructed_at tr ++ constructed_at tr'.
Proof. apply omap_app. Qed.

Lemma disposed_at_app tr tr' :
  disposed_at (tr ++ tr') = disposed_at tr ++ disposed_at tr'.
Proof. apply omap_app. Qed.

Lemma constructed_at_assigns l (vals : prop → value) ps :
  constructed_at (map (λ p, Assign l (name p) (vals p)) ps) = [].
Proof. induction ps as [|p ps IH]; [done|]. simpl. apply IH. Qed.

Lemma disposed_at_assigns l (vals : prop → value) ps :
  disposed_at (map (λ p, Assign l (name p) (vals p)) ps) = [].
Proof. induction ps as [|p ps IH]; [done|]. simpl. apply IH. Qed.

Lemma constructed_at_emits n : constructed_at (repeat Emit n) = [].
Proof. induction n as [|n IH]; [done|]. simpl. apply IH. Qed.

Lemma disposed_at_emits n : disposed_at (repeat Emit n) = [].
Proof. induction n as [|n IH]; [done|]. simpl. apply IH. Qed.

Lemma born_accounted pd : accounted 0 (born pd).
Proof.
  rewrite born_eq. unfold accounted. cbn [trace is_destroyed].
  rewrite !constructed_at_app, !disposed_at_app.
  by rewrite constructed_at_assigns, disposed_at_assigns.
Qed.

Lemma step_accounted a s s' :
  inv s → accounted 0 s → step a s = Return (tt, s') → accounted 0 s'.
Proof.
  intros (Hc & _) [Hnew Hdis] Hstep. destruct a as [p v|l|].
  - destruct (is_destroyed s) eqn:Hd.
    { rewrite step_change_destroyed in Hstep by done.
      injection Hstep as <-. unfold accounted. by rewrite Hd. }
    rewrite (step_change s 0) in Hstep by done.
    destruct (coerce p v) as [v'|]; [|done]. injection Hstep as <-.
    unfold accounted.
    cbn [trace is_destroyed recorded assigned with_heap with_data].
    rewrite Hd, !constructed_at_app, !disposed_at_app, Hnew, Hdis.
    by unfold closing; destruct (relayout p).
  - destruct (step_synccomplete_frame s l)
      as (s1 & n & Hs1 & _ & _ & _ & Hd1 & Htr).
    rewrite Hs1 in Hstep. injection Hstep as <-. unfold accounted.
    rewrite Htr, Hd1, constructed_at_app, disposed_at_app.
    by rewrite constructed_at_emits, disposed_at_emits, !app_nil_r.
  - destruct (is_destroyed s) eqn:Hd.
    { rewrite step_destroy_destroyed in Hstep by done.
      injection Hstep as <-. unfold accounted. by rewrite Hd. }
    rewrite (step_destroy s 0) in Hstep by done. injection Hstep as <-.
    unfold accounted. cbn [trace is_destroyed recorded with_destroyed].
    by rewrite constructed_at_app, disposed_at_app, Hnew, Hdis.
Qed.

Lemma run_accounted acts s s' :
  inv s → accounted 0 s → run acts s = Return (tt, s') → accounted 0 s'.
Proof.
  revert s. induction acts as [|a acts IH]; intros s Hinv Hacc.
  - by intros [= <-].
  - simpl. unfold mbind, M_bind.
    destruct (step a s) as [[[] s1]|] eqn:Hstep; [|done].
    intros Hrun. eapply IH; [by eapply step_inv|by eapply step_accounted|done].
Qed.

End ComponentFacts.

(** ** The claims of the specification *)

Import JS Helpers TroikaText Spec HelperFacts ComponentFacts.

(** Case analysis on membership in one of the explicit lists of props. *)
Ltac each_of H :=
  repeat (apply elem_of_cons in H as [H|H]; [try subst; try done|]);
  try (by apply elem_of_nil in H).

Lemma field_assigned s l t f v c :
  cached_inst s = Some l → heap s !! l = Some t →
  field (recorded c (assigned l f v s)) f = Some v.
Proof.
  intros Hc Ht. unfold field, owned.
  cbn [cached_inst heap recorded assigned with_heap].
  rewrite Hc. cbn [mbind option_bind].
  rewrite list_lookup_alter_eq, Ht.
  cbn [fmap option_fmap option_map mbind option_bind].
  apply lookup_insert_eq.
Qed.

Lemma field_born pd p :
  field (born pd) (name p) = Some (mirror p (initial_value pd p)).
Proof.
  rewrite born_eq. unfold field, owned. cbn [cached_inst heap mbind option_bind].
  change (Some (write_all (λ p, mirror p (initial_value pd p)) mirrored
                  (listen "synccomplete" EmitOnHost fresh))
          ≫= (λ t : Text, fields t !! name p)
          = Some (mirror p (initial_value pd p))).
  cbn [mbind option_bind].
  apply write_all_lookup, mirrored_all_props.
Qed.

Lemma live_empty : live (born ∅) 0.
Proof. apply inv_live; [apply born_inv|by rewrite born_eq]. Qed.

Lemma live_step_change s l p v :
  live s l → (p = clipRect → parsable v = true) →
  ∃ s', step (Change p v) s = Return (tt, s') ∧
        field s' (name p) = Some (mirror p v) ∧
        trace s' = trace s ++ [Assign l (name p) (mirror p v); closing p l] ∧
        live s' l.
Proof.
  intros ((Hc & t & Ht & Hl) & Hd) Hv.
  rewrite (step_change s l) by done. rewrite (coerce_returns p v Hv).
  eexists. split_and!; [done|by eapply field_assigned| |].
  - cbn [trace recorded assigned with_heap with_data]. by rewrite <-app_assoc.
  - split; [split; [done|]|done].
    exists (write (name p) (mirror p v) t). split; [|done].
    cbn [heap recorded assigned with_heap with_data].
    by rewrite list_lookup_alter_eq, Ht.
Qed.

(** C1.  A changed attribute reaches the field of its name on the
    [Text] as the coerced value, and a new component's [Text] holds the
    coerced value of every attribute; the coercion of [clipRect] turns
    the string [0,0,1,1] into the array of the numbers 0, 0, 1, 1. *)
Theorem attribute_copied_after_coercion :
  (∀ s l p v v', live s l → coerce p v = Return v' →
     ∃ s', step (Change p v) s = Return (tt, s') ∧
           field s' (name p) = Some v') ∧
  (∀ pd p, parsable (initial_value pd clipRect) = true →
     ∃ s v', life pd [] = Return s ∧
             coerce p (initial_value pd p) = Return v' ∧
             field s (name p) = Some v') ∧
  coerce clipRect (VStr "0,0,1,1")
  = Return (VArr [VNum zero; VNum zero; VNum one; VNum one]).
Proof.
  split_and!.
  - intros s l p v v' ((Hc & t & Ht & _) & Hd) Hv.
    rewrite (step_change s l) by done. rewrite Hv.
    eexists. split; [done|]. by eapply field_assigned.
  - intros pd p Hclip. rewrite life_eq by done. cbn [run mret M_ret].
    exists (born pd), (mirror p (initial_value pd p)).
    split_and!; [done| |apply field_born].
    apply coerce_returns. by intros ->.
  - reflexivity.
Qed.

Lemma attribute_copied_after_coercion_witness :
  field_after ∅ [Change clipRect (VStr "0,0,1,1")] "clipRect"
  = Some (VArr [VNum zero; VNum zero; VNum one; VNum one]) ∧
  field_after (<["text" := VStr "hello"]> ∅) [] "text" = Some (VStr "hello").
Proof.
  destruct attribute_copied_after_coercion as (Hchange & Hinit & Hclip).
  split.
  - destruct (Hchange (born ∅) 0 clipRect _ _ live_empty Hclip) as (s' & Hs' & Hf).
    unfold field_after. rewrite life_eq by done. cbn [run].
    rewrite (bind_eq _ _ _ _ _ Hs'). done.
  - assert (parsable (initial_value (<["text" := VStr "hello"]> ∅) clipRect) = true)
      as Hparsable by (vm_compute; reflexivity).
    destruct (Hinit _ text Hparsable) as (s & v' & Hs & Hv' & Hf).
    unfold field_after. rewrite Hs.
    assert (coerce text (initial_value (<["text" := VStr "hello"]> ∅) text)
            = Return (VStr "hello")) as Hhello by (vm_compute; reflexivity).
    rewrite Hhello in Hv'. by injection Hv' as <-.
Defined.

(** C2.  The watchers fall into the classes the specification states.
    A change of an attribute it names as layout-affecting assigns the
    field and calls [sync], with no redraw signal; a change of one it
    names as presentation-only assigns the field and emits the redraw
    signal, with no [sync].  Of the three attributes it leaves unnamed,
    [sdfGlyphSize] goes with the former, [color] and [depthOffset] with
    the latter. *)
Theorem watchers_classified :
  (∀ s l p v, live s l → p ∈ layout_affecting →
     ∃ s', step (Change p v) s = Return (tt, s') ∧
           trace s' = trace s ++ [Assign l (name p) v; Sync l]) ∧
  (∀ s l p v, live s l → p ∈ presentation_only →
     (p = clipRect → parsable v = true) →
     ∃ s', step (Change p v) s = Return (tt, s') ∧
           trace s' = trace s ++ [Assign l (name p) (mirror p v); Emit]) ∧
  (∀ s l v, live s l →
     ∃ s', step (Change sdfGlyphSize v) s = Return (tt, s') ∧
           trace s' = trace s ++ [Assign l "sdfGlyphSize" v; Sync l]) ∧
  (∀ s l p v, live s l → p = color ∨ p = depthOffset →
     ∃ s', step (Change p v) s = Return (tt, s') ∧
           trace s' = trace s ++ [Assign l (name p) v; Emit]) ∧
  (∀ p, p ∈ layout_affecting ++ [sdfGlyphSize] ∨
        p ∈ presentation_only ++ [color; depthOffset]).
Proof.
  split_and!.
  - intros s l p v Hlive Hp.
    destruct (live_step_change s l p v Hlive) as (s' & Hs' & _ & Htr & _).
    { intros ->. unfold layout_affecting in Hp. each_of Hp. }
    exists s'. split; [done|]. rewrite Htr.
    unfold layout_affecting in Hp. each_of Hp.
  - intros s l p v Hlive Hp Hv.
    destruct (live_step_change s l p v Hlive Hv) as (s' & Hs' & _ & Htr & _).
    exists s'. split; [done|]. rewrite Htr.
    unfold presentation_only in Hp. each_of Hp.
  - intros s l v Hlive.
    destruct (live_step_change s l sdfGlyphSize v Hlive) as (s' & Hs' & _ & Htr & _);
      [done|].
    by exists s'.
  - intros s l p v Hlive Hp.
    destruct (live_step_change s l p v Hlive) as (s' & Hs' & _ & Htr & _).
    { by intros ->; destruct Hp. }
    exists s'. split; [done|]. rewrite Htr. by destruct Hp as [-> | ->].
  - intros p. unfold layout_affecting, presentation_only.
    destruct p; first [by left; listed | by right; listed].
Qed.

Lemma watchers_classified_witness :
  trace_after ∅ [] ≫= (λ before,
    trace_after ∅ [Change text (VStr "hello")] ≫= (λ after,
      Some (drop (length before) after)))
  = Some [Assign 0 "text" (VStr "hello"); Sync 0] ∧
  ∃ s', step (Change strokeColor (VStr "red")) (born ∅) = Return (tt, s') ∧
        trace s' = trace (born ∅) ++ [Assign 0 "strokeColor" (VStr "red"); Emit].
Proof.
  destruct watchers_classified as (Hlayout & Hpresent & _).
  split.
  - destruct (Hlayout (born ∅) 0 text (VStr "hello") live_empty) as (s' & Hs' & Htr).
    { unfold layout_affecting. listed. }
    unfold trace_after. rewrite !life_eq by done. cbn [run].
    rewrite (bind_eq _ _ _ _ _ Hs'). cbn [mret M_ret mbind option_bind].
    by rewrite Htr, drop_app_length.
  - apply (Hpresent (born ∅) 0 strokeColor (VStr "red") live_empty).
    + unfold presentation_only. listed.
    + done.
Defined.

(** C3.  One change of a layout-affecting attribute makes exactly one
    [sync] call on the [Text] and emits nothing itself; the redraw
    signal is emitted, once, when [synccomplete] fires afterwards. *)
Theorem relayout_syncs_then_emits_on_completion s l p v :
  live s l → relayout p = true →
  ∃ s' s'',
    step (Change p v) s = Return (tt, s') ∧
    trace s' = trace s ++ [Assign l (name p) v; Sync l] ∧
    count_calls is_sync [Assign l (name p) v; Sync l] = 1 ∧
    count_calls is_emit [Assign l (name p) v; Sync l] = 0 ∧
    step (SyncComplete l) s' = Return (tt, s'') ∧
    trace s'' = trace s' ++ [Emit].
Proof.
  intros Hlive Hp.
  destruct (live_step_change s l p v Hlive) as (s' & Hs' & _ & Htr & Hlive').
  { by intros ->. }
  assert (mirror p v = v) as Hv by by destruct p.
  unfold closing in Htr. rewrite Hp, Hv in Htr.
  destruct Hlive' as ((_ & t & Ht & Hl) & _).
  exists s', (recorded Emit s'). split_and!; try done.
  by eapply step_synccomplete.
Qed.

Lemma relayout_syncs_then_emits_on_completion_witness :
  ∃ s' s'',
    step (Change text (VStr "hello")) (born ∅) = Return (tt, s') ∧
    trace s' = trace (born ∅) ++ [Assign 0 "text" (VStr "hello"); Sync 0] ∧
    count_calls is_sync [Assign 0 "text" (VStr "hello"); Sync 0] = 1 ∧
    count_calls is_emit [Assign 0 "text" (VStr "hello"); Sync 0] = 0 ∧
    step (SyncComplete 0) s' = Return (tt, s'') ∧
    trace s'' = trace s' ++ [Emit].
Proof.
  apply (relayout_syncs_then_emits_on_completion
           (born ∅) 0 text (VStr "hello") live_empty).
  reflexivity.
Defined.

(** C4, the counterexample.  The validator of [color] rejects the
    boolean [true]; the watcher of [color], handed [true], overwrites
    the field, which held [null], with it. *)
Lemma boolean_color_overwrites_field :
  validator (props color) = Some (nullableValidator validateColor) ∧
  accepts (nullableValidator validateColor) (VBool true) = false ∧
  field_after ∅ [] "color" = Some VNull ∧
  field_after ∅ [Change color (VBool true)] "color" = Some (VBool true).
Proof. split_and!; [reflexivity|reflexivity|by vm_compute|by vm_compute]. Qed.

(** C4, as amended.  The validator declared for a colour-typed
    attribute rejects, without throwing, every value of an unrecognized
    shape.  The watcher does not consult the validator: handed such a
    value, it assigns it to the field and emits the redraw signal. *)
Theorem color_rejected_by_validator_copied_by_watcher p v :
  p ∈ color_typed → recognized_color v = false →
  validator (props p) = Some (nullableValidator validateColor) ∧
  (∃ r, nullableValidator validateColor v = Return r ∧ truthy r = false) ∧
  (∀ s l, live s l →
     ∃ s', step (Change p v) s = Return (tt, s') ∧
           field s' (name p) = Some v ∧
           trace s' = trace s ++ [Assign l (name p) v; Emit]).
Proof.
  intros Hp Hv. unfold color_typed in Hp.
  assert (mirror p v = v ∧ closing p 0 = Emit ∧ p ≠ clipRect) as (Hm & Hc & Hne).
  { each_of Hp. }
  split_and!.
  - each_of Hp.
  - unfold recognized_color in Hv.
    apply orb_false_elim in Hv as [Hv Hcolor].
    apply orb_false_elim in Hv as [Hv Hstring].
    apply orb_false_elim in Hv as [Hnull Hnumber].
    pose proof (validateColor_accepts v) as Hacc.
    rewrite Hnumber, Hstring, Hcolor in Hacc.
    unfold nullableValidator. rewrite Hnull.
    unfold accepts in Hacc.
    destruct (validateColor v) as [r|e] eqn:E; [by exists r|].
    by destruct v.
  - intros s l Hlive.
    destruct (live_step_change s l p v Hlive) as (s' & Hs' & Hf & Htr & _);
      [done|].
    exists s'. rewrite Hm in *. split_and!; [done|done|].
    rewrite Htr. do 3 f_equal. each_of Hp.
Qed.

Lemma color_rejected_by_validator_copied_by_watcher_witness :
  ∃ s', step (Change strokeColor (VBool false)) (born ∅) = Return (tt, s') ∧
        field s' "strokeColor" = Some (VBool false) ∧
        trace s' = trace (born ∅) ++ [Assign 0 "strokeColor" (VBool false); Emit].
Proof.
  assert (strokeColor ∈ color_typed) as Hp by (unfold color_typed; listed).
  destruct (color_rejected_by_validator_copied_by_watcher
              strokeColor (VBool false) Hp eq_refl) as (_ & _ & Hwatch).
  apply (Hwatch (born ∅) 0 live_empty).
Defined.

(** C5, the counterexample.  [validateFloatArray] accepts the string
    [1abc], which is not a comma-separated numeric string. *)
Lemma numeric_prefix_accepted :
  accepts validateFloatArray (VStr "1abc") = true ∧
  permitted_array (VStr "1abc") = false.
Proof. split; reflexivity. Qed.

(** C5, as amended.  [validateColor] accepts exactly the numbers, the
    strings, whatever they spell, and the values whose [isColor] is
    set.  [validateFloatArray] accepts a string exactly when
    [parseFloat] reads a number off the front of every comma-separated
    piece, an array exactly when it does so off every element, and
    nothing else; the comma-separated numeric strings and the arrays of
    numbers other than NaN are among the accepted.  Wrapped for a
    nullable prop, both accept [null] and [undefined] as well. *)
Theorem validators_characterised :
  (∀ v, accepts validateColor v
        = typeof_number v || typeof_string v || has_isColor v) ∧
  (∀ s, accepts validateFloatArray (VStr s)
        = forallb (λ piece, negb (is_NaN (parse_float piece))) (split "," s)) ∧
  (∀ items, accepts validateFloatArray (VArr items)
        = forallb (λ item, negb (is_NaN (parseFloat item))) items) ∧
  (∀ v, typeof_string v = false → isArray v = false →
        accepts validateFloatArray v = false) ∧
  (∀ v, permitted_array v = true → accepts validateFloatArray v = true) ∧
  (∀ v, accepts (nullableValidator validateColor) v = recognized_color v) ∧
  (∀ v, eq_null v = true → accepts (nullableValidator validateFloatArray) v = true).
Proof.
  split_and!.
  - apply validateColor_accepts.
  - intros s. unfold accepts. by rewrite validateFloatArray_string.
  - done.
  - intros v Hs Ha. unfold accepts.
    pose proof (validateFloatArray_other v Hs Ha).
    by destruct (validateFloatArray v).
  - intros v Hv. unfold accepts.
    destruct v as [| |b|n|s|items|fs]; try done.
    + rewrite validateFloatArray_string. simpl.
      unfold permitted_array, comma_separated_numeric in Hv.
      induction (split "," s) as [|piece pieces IH]; [done|].
      simpl in *. apply andb_prop in Hv as [Hpiece Hv].
      by rewrite (numeric_string_parses _ Hpiece), IH.
    + rewrite validateFloatArray_array. simpl. simpl in Hv.
      induction items as [|item items IH]; [done|].
      simpl in *. apply andb_prop in Hv as [Hitem Hv].
      rewrite IH by done. destruct item; try done.
      rewrite parseFloat_number; [done|]. by apply negb_true_iff.
  - intros v. unfold recognized_color.
    destruct (eq_null v) eqn:E; [by destruct v|].
    rewrite !orb_false_l, <-validateColor_accepts.
    unfold accepts, nullableValidator. by rewrite E.
  - by intros [] Hv.
Qed.

Lemma validators_characterised_witness :
  accepts validateFloatArray (VBool true) = false ∧
  accepts validateFloatArray (VArr [VNum zero; VNum one]) = true.
Proof.
  destruct validators_characterised as (_ & _ & _ & Hother & Hin & _).
  split; [by apply Hother|by apply Hin].
Defined.

(** C6.  The null-passing coercion maps [null] to [null] and every
    value that is not [== null] to what the wrapped parser makes of
    it ([undefined], which [== null] also catches, goes to [null] as
    well).  Setting any attribute to [null], the nullable [font],
    [color], [colorRanges], [clipRect] and [sdfGlyphSize] among them,
    leaves [null] in the field of the [Text], on a change and at
    construction alike; the nullable attributes default to [null], so
    their fields hold [null] on a component given no props. *)
Theorem null_passes_through :
  (∀ (T : Type) (parser : value → completion T),
     nullableParser parser VNull = Return None ∧
     nullableParser parser VUndefined = Return None) ∧
  (∀ (T : Type) (parser : value → completion T) x,
     eq_null x = false →
     nullableParser parser x = (parsed ← parser x; mret (Some parsed))) ∧
  (∀ s l p, live s l →
     ∃ s', step (Change p VNull) s = Return (tt, s') ∧
           field s' (name p) = Some VNull) ∧
  (∀ pd p, parsable (initial_value pd clipRect) = true →
     initial_value pd p = VNull →
     ∃ s, life pd [] = Return s ∧ field s (name p) = Some VNull) ∧
  (∀ p, p ∈ nullable →
     default (props p) = VNull ∧ field_after ∅ [] (name p) = Some VNull).
Proof.
  split_and!.
  - done.
  - intros T parser x Hx. unfold nullableParser. by rewrite Hx.
  - intros s l p ((Hc & t & Ht & _) & Hd).
    rewrite (step_change s l) by done.
    assert (coerce p VNull = Return VNull) as -> by by destruct p.
    eexists. split; [done|]. by eapply field_assigned.
  - intros pd p Hclip Hp. rewrite life_eq by done. cbn [run mret M_ret].
    eexists. split; [done|]. rewrite field_born, Hp. by destruct p.
  - intros p Hp. unfold nullable in Hp.
    each_of Hp; (split; [reflexivity|by vm_compute]).
Qed.

Lemma null_passes_through_witness :
  nullableParser parseFloatArray (VStr "1") = Return (Some [one]) ∧
  field_after ∅ [Change clipRect VNull] "clipRect" = Some VNull ∧
  field_after (<["font" := VNull]> ∅) [] "font" = Some VNull.
Proof.
  destruct null_passes_through as (_ & Hparse & Hchange & Hinit & _).
  split_and!.
  - by rewrite (Hparse _ parseFloatArray (VStr "1") eq_refl).
  - destruct (Hchange (born ∅) 0 clipRect live_empty) as (s' & Hs' & Hf).
    unfold field_after. rewrite life_eq by done. cbn [run].
    rewrite (bind_eq _ _ _ _ _ Hs'). done.
  - assert (parsable (initial_value (<["font" := VNull]> ∅) clipRect) = true)
      as Hclip by (vm_compute; reflexivity).
    assert (initial_value (<["font" := VNull]> ∅) font = VNull)
      as Hfont by (vm_compute; reflexivity).
    destruct (Hinit _ font Hclip Hfont) as (s & Hs & Hf).
    unfold field_after. by rewrite Hs.
Defined.

(** C7.  A component has exactly one [Text]: the first [this.inst]
    constructs it and every later one returns the same object, and the
    [destroyed] hook disposes of that very object, once.  A component
    destroyed right after construction has not thrown; the one
    [new Text()] it made is the object [this.inst] returns, and its one
    [dispose()] call is on that object.  After any life there is one
    [Text], the one [this.inst] returns; it is the only one ever
    constructed, and the only one ever disposed of: once if the
    component was destroyed and not at all otherwise. *)
Theorem one_text_disposed_once :
  (∀ s, cached_inst s = None →
     ∃ s', inst s = Return (length (heap s), s') ∧
           cached_inst s' = Some (length (heap s)) ∧
           length (heap s') = S (length (heap s)) ∧
           ∀ s'' l, inst s' = Return (l, s'') → l = length (heap s) ∧ s'' = s') ∧
  (∀ s l, cached_inst s = Some l →
     destroyed s = Return (tt, recorded (Dispose l) s)) ∧
  (∀ pd, parsable (initial_value pd clipRect) = true →
     ∃ s l, life pd [Destroy] = Return s ∧
          inst s = Return (l, s) ∧
          length (heap s) = 1 ∧
          is_Some (heap s !! l) ∧
          count_calls is_new (trace s) = 1 ∧
          count_calls is_dispose (trace s) = 1 ∧
          constructed_at (trace s) = [l] ∧
          disposed_at (trace s) = [l]) ∧
  (∀ pd acts s, life pd acts = Return s →
     length (heap s) = 1 ∧
     count_calls is_new (trace s) = 1 ∧
     count_calls is_dispose (trace s)
     = (if existsb is_Destroy acts then 1 else 0) ∧
     ∃ l, inst s = Return (l, s) ∧
          is_Some (heap s !! l) ∧
          constructed_at (trace s) = [l] ∧
          disposed_at (trace s)
          = (if existsb is_Destroy acts then [l] else [])).
Proof.
  assert (∀ pd acts s, life pd acts = Return s →
     length (heap s) = 1 ∧ count_calls is_new (trace s) = 1 ∧
     count_calls is_dispose (trace s)
     = (if existsb is_Destroy acts then 1 else 0) ∧
     ∃ l, inst s = Return (l, s) ∧ is_Some (heap s !! l) ∧
          constructed_at (trace s) = [l] ∧
          disposed_at (trace s)
          = (if existsb is_Destroy acts then [l] else [])) as Hlife.
  { intros pd acts s Hs.
    destruct (life_inv _ _ _ Hs) as (Hc & (t & Hh & _) & Hnew & Hdis).
    pose proof (life_parsable _ _ _ Hs) as Hclip.
    rewrite life_eq in Hs by done.
    destruct (run acts (born pd)) as [[[] s1]|] eqn:Hrun; [|done].
    injection Hs as <-.
    destruct (run_accounted _ _ _ (born_inv pd) (born_accounted pd) Hrun)
      as [Hcons Hdisp].
    assert (is_destroyed s1 = existsb is_Destroy acts) as Hd.
    { rewrite (run_destroyed _ _ _ (born_inv pd) Hrun). by rewrite born_eq. }
    rewrite Hd in Hdis, Hdisp.
    split_and!; [by rewrite Hh|done|done|].
    exists 0. split_and!; [by apply inst_cached|by rewrite Hh|done|done]. }
  split_and!; [| | |done].
  - intros s Hs. exists (built s). split_and!.
    + by apply inst_first.
    + done.
    + unfold built. cbn [heap with_cache recorded with_heap].
      rewrite length_alter, length_app. simpl. lia.
    + intros s'' l. rewrite (inst_cached (built s) (length (heap s))) by done.
      by intros [= <- <-].
  - intros s l Hc. unfold destroyed.
    by rewrite (bind_eq _ _ _ _ _ (inst_cached s l Hc)).
  - intros pd Hclip.
    destruct (life_returns pd [Destroy] Hclip eq_refl) as [s Hs].
    destruct (Hlife _ _ _ Hs) as (Hh & Hnew & Hdis & l & Hl & Ht & Hc & Hd).
    exists s, l. by split_and!.
Qed.

Lemma one_text_disposed_once_witness :
  ∃ s l, life ∅ [Destroy] = Return s ∧ inst s = Return (l, s) ∧
       length (heap s) = 1 ∧ is_Some (heap s !! l) ∧
       count_calls is_new (trace s) = 1 ∧
       count_calls is_dispose (trace s) = 1 ∧
       constructed_at (trace s) = [l] ∧ disposed_at (trace s) = [l].
Proof.
  apply (proj1 (proj2 (proj2 one_text_disposed_once)) ∅). reflexivity.
Defined.

(** C8.  Construction registers, on the new [Text], the one listener
    that emits the host's redraw signal whenever a sync completes,
    writes the current value of every declared attribute to it, one
    assignment per attribute, and then makes a single [sync] call. *)
Theorem construction_registers_applies_syncs pd :
  parsable (initial_value pd clipRect) = true →
  ∃ s t,
    life pd [] = Return s ∧
    owned s = Some t ∧
    listeners t = [("synccomplete", EmitOnHost)] ∧
    (∀ p, coerce p (initial_value pd p) = Return (mirror p (initial_value pd p)) ∧
          fields t !! name p = Some (mirror p (initial_value pd p))) ∧
    trace s = [NewText 0; AddEventListener 0 "synccomplete"] ++
              map (λ p, Assign 0 (name p) (mirror p (initial_value pd p)))
                mirrored ++
              [Sync 0] ∧
    count_calls is_assign (trace s) = length declared ∧
    count_calls is_sync (trace s) = 1 ∧
    (∀ acts s', life pd acts = Return s' →
       step (SyncComplete 0) s' = Return (tt, recorded Emit s')).
Proof.
  intros Hclip. rewrite life_eq by done. cbn [run mret M_ret].
  exists (born pd),
    (write_all (λ p, mirror p (initial_value pd p)) mirrored
       (listen "synccomplete" EmitOnHost fresh)).
  split_and!.
  - done.
  - by rewrite born_eq.
  - by rewrite write_all_listeners.
  - intros p. split.
    + apply coerce_returns. by intros ->.
    + apply write_all_lookup, mirrored_all_props.
  - by rewrite born_eq.
  - rewrite born_eq. cbn [trace]. rewrite !count_calls_app. simpl.
    reflexivity.
  - rewrite born_eq. cbn [trace]. rewrite !count_calls_app. simpl.
    reflexivity.
  - intros acts s' Hs'.
    destruct (life_inv _ _ _ Hs') as (_ & (t & Hh & Hl) & _).
    eapply step_synccomplete; [|done]. by rewrite Hh.
Qed.

Lemma construction_registers_applies_syncs_witness :
  ∃ s t,
    life ∅ [] = Return s ∧ owned s = Some t ∧
    listeners t = [("synccomplete", EmitOnHost)] ∧
    (∀ p, coerce p (initial_value ∅ p) = Return (mirror p (initial_value ∅ p)) ∧
          fields t !! name p = Some (mirror p (initial_value ∅ p))) ∧
    trace s = [NewText 0; AddEventListener 0 "synccomplete"] ++
              map (λ p, Assign 0 (name p) (mirror p (initial_value ∅ p)))
                mirrored ++
              [Sync 0] ∧
    count_calls is_assign (trace s) = length declared ∧
    count_calls is_sync (trace s) = 1 ∧
    (∀ acts s', life ∅ acts = Return s' →
       step (SyncComplete 0) s' = Return (tt, recorded Emit s')).
Proof.
  apply (construction_registers_applies_syncs ∅). reflexivity.
Defined.

(** C9, the counterexample.  The wrapped array validator throws on a
    number, which has no [split] method. *)
Lemma array_validator_throws_on_number :
  nullableValidator validateFloatArray (VNum (Fin false 5 0))
  = Throw (TypeError "array.split is not a function").
Proof. reflexivity. Qed.

(** C9, as amended.  The wrapped colour validator returns on every
    input, a boolean unless [isColor] holds something truthy that is
    not one.  The wrapped array validator and the [clipRect] coercion
    return on [null], [undefined], every string and every array, the
    validator a boolean; on any other value both throw. *)
Theorem validators_total_on_typed_input :
  (∀ v, ∃ r, nullableValidator validateColor v = Return r) ∧
  (∀ v, (∀ flag, get v "isColor" = Return flag → truthy flag = true →
                 flag = VBool true) →
        ∃ b, nullableValidator validateColor v = Return (VBool b)) ∧
  (∀ v, parsable v = true →
        (∃ b, nullableValidator validateFloatArray v = Return (VBool b)) ∧
        returns (nullableParser parseFloatArray v)) ∧
  (∀ v, parsable v = false →
        throws (nullableValidator validateFloatArray v) ∧
        throws (nullableParser parseFloatArray v)).
Proof.
  split_and!.
  - intros v. unfold nullableValidator, validateColor.
    destruct v; simpl; eauto.
  - intros v Hflag. unfold nullableValidator, validateColor, or_else in *.
    destruct v as [| |b|n|s|items|fs]; simpl in *; eauto.
    destruct (truthy (option.default VUndefined (assoc "isColor" fs))) eqn:E.
    + rewrite (Hflag _ eq_refl E). simpl. eauto.
    + simpl. eauto.
  - intros v Hv. split.
    + destruct v as [| |b|n|s|items|fs]; try done;
        unfold nullableValidator; simpl; eauto.
    + destruct (parsable_returns v Hv) as [r ->]. done.
  - intros v Hv. split.
    + by destruct v.
    + destruct (unparsable_throws v Hv) as [e ->]. done.
Qed.

Lemma validators_total_on_typed_input_witness :
  (∃ b, nullableValidator validateColor
          (VObj [("isColor", VBool true)]) = Return (VBool b)) ∧
  (∃ b, nullableValidator validateFloatArray (VStr "0,0,1,1")
        = Return (VBool b)) ∧
  throws (nullableParser parseFloatArray (VBool true)).
Proof.
  destruct validators_total_on_typed_input as (_ & Hcolor & Htyped & Hrest).
  split_and!.
  - apply Hcolor. simpl. by intros flag [= <-].
  - by apply (Htyped (VStr "0,0,1,1")).
  - by apply (Hrest (VBool true)).
Defined.

(** C10.  When [validateFloatArray] accepts a string or an array,
    [parseFloatArray] of it is an array without NaN; an array of numbers
    parses to the same numbers. *)
Theorem validated_arrays_parse_without_NaN :
  (∀ v, validateFloatArray v = Return (VBool true) →
     ∃ ns, parseFloatArray v = Return ns ∧ Forall (λ n, is_NaN n = false) ns) ∧
  (∀ ns, parseFloatArray (VArr (map VNum ns)) = Return ns).
Proof.
  split.
  - intros v Hv. destruct v as [| |b|n|s|items|fs]; try done.
    + rewrite validateFloatArray_string in Hv. injection Hv as Hv.
      rewrite parseFloatArray_string. eexists. split; [done|].
      induction (split "," s) as [|piece pieces IH]; [constructor|].
      simpl in Hv. apply andb_prop in Hv as [Hpiece Hv].
      constructor; [by apply negb_true_iff|auto].
    + rewrite validateFloatArray_array in Hv. injection Hv as Hv.
      eexists. split; [done|].
      induction items as [|item items IH]; [constructor|].
      simpl in Hv. apply andb_prop in Hv as [Hitem Hv].
      constructor; [|auto]. apply negb_true_iff in Hitem.
      destruct item as [| |b|[]| | |]; done.
  - intros ns. unfold parseFloatArray. f_equal.
    induction ns as [|n ns IH]; [done|]. simpl. by rewrite IH.
Qed.

Lemma validated_arrays_parse_without_NaN_witness :
  ∃ ns, parseFloatArray (VStr "0,0,1,1") = Return ns ∧
        Forall (λ n, is_NaN n = false) ns.
Proof.
  apply (proj1 validated_arrays_parse_without_NaN (VStr "0,0,1,1")).
  reflexivity.
Defined.

(** ** Further properties of the helper functions *)

Lemma is_NaN_parseFloat_number n : is_NaN (parseFloat (VNum n)) = is_NaN n.
Proof.
  destruct (is_NaN n) eqn:E; [by destruct n|]. by apply parseFloat_number.
Qed.

Lemma length_split c s : length (split c s) = S (occurrences c s).
Proof.
  induction s as [|c' s IH]; [done|]. simpl.
  destruct (Ascii.eqb c' c); simpl; [by rewrite IH|].
  destruct (split c s); simpl in *; [done|]. by rewrite IH.
Qed.

Lemma split_app c s1 s2 :
  split c (s1 +:+ String c s2) = split c s1 ++ split c s2.
Proof.
  induction s1 as [|c' s1 IH]; simpl.
  - by rewrite Ascii.eqb_refl.
  - destruct (Ascii.eqb c' c); [by rewrite IH|].
    rewrite IH. pose proof (length_split c s1) as Hlen.
    by destruct (split c s1).
Qed.

(** X1.  The array validator is exact: whenever it returns, the parser
    returns too, and the validator's answer is whether the parsed array
    is free of NaN.  On every value on which the validator throws, the
    parser throws as well. *)
Theorem validator_decides_NaN_freedom :
  (∀ v r, validateFloatArray v = Return r →
     ∃ ns, parseFloatArray v = Return ns ∧
           r = VBool (forallb (λ n, negb (is_NaN n)) ns)) ∧
  (∀ v, throws (validateFloatArray v) ↔ throws (parseFloatArray v)).
Proof.
  split.
  - intros v r Hv. destruct v as [| |b|n|s|items|fs]; try done.
    + rewrite validateFloatArray_string in Hv. injection Hv as <-.
      rewrite parseFloatArray_string. eexists. split; [done|].
      do 2 f_equal. induction (split "," s) as [|piece pieces IH]; [done|].
      simpl. by rewrite IH.
    + rewrite validateFloatArray_array in Hv. injection Hv as <-.
      eexists. split; [done|]. f_equal.
      induction items as [|item items IH]; [done|]. simpl. rewrite IH.
      f_equal. destruct item; try done. by rewrite is_NaN_parseFloat_number.
  - intros v. by destruct v.
Qed.

Lemma validator_decides_NaN_freedom_witness :
  ∃ ns, parseFloatArray (VStr "1,x") = Return ns ∧
        VBool false = VBool (forallb (λ n, negb (is_NaN n)) ns).
Proof.
  apply (proj1 validator_decides_NaN_freedom (VStr "1,x") (VBool false)).
  reflexivity.
Defined.

(** X2.  The parser keeps the shape of its input: a string yields one
    number per comma-separated piece, so one more than it has commas
    and never an empty array; an array yields one number per element. *)
Theorem parseFloatArray_length :
  (∀ s, ∃ ns, parseFloatArray (VStr s) = Return ns ∧
              length ns = S (occurrences "," s)) ∧
  (∀ items, ∃ ns, parseFloatArray (VArr items) = Return ns ∧
                  length ns = length items).
Proof.
  split.
  - intros s. rewrite parseFloatArray_string. eexists. split; [done|].
    by rewrite length_map, length_split.
  - intros items. eexists. split; [done|]. by rewrite length_map.
Qed.

(** X3.  A string with an empty piece is not a valid float array: the
    validator rejects the empty string, a string that begins or ends
    with a comma, and a string with two commas in a row. *)
Theorem empty_piece_rejected :
  validateFloatArray (VStr EmptyString) = Return (VBool false) ∧
  (∀ s, validateFloatArray (VStr ("," +:+ s)) = Return (VBool false)) ∧
  (∀ s, validateFloatArray (VStr (s +:+ ",")) = Return (VBool false)) ∧
  (∀ s1 s2, validateFloatArray (VStr (s1 +:+ ",," +:+ s2))
            = Return (VBool false)).
Proof.
  assert (∀ before after,
    forallb (λ piece, negb (is_NaN (parse_float piece)))
      (before ++ EmptyString :: after) = false) as Hempty.
  { intros before after. induction before as [|piece before IH]; [done|].
    simpl. rewrite IH. apply andb_false_r. }
  split_and!.
  - done.
  - intros s. by rewrite validateFloatArray_string.
  - intros s. rewrite validateFloatArray_string.
    change (s +:+ ",") with (s +:+ String "," EmptyString).
    rewrite split_app. do 2 f_equal. exact (Hempty (split "," s) []).
  - intros s1 s2. rewrite validateFloatArray_string.
    change (s1 +:+ ",," +:+ s2) with (s1 +:+ String "," ("," +:+ s2)).
    rewrite split_app. do 2 f_equal.
    exact (Hempty (split "," s1) (split "," s2)).
Qed.

(** ** Further properties of the component *)

Lemma step_change_eq s l p v :
  live s l → (p = clipRect → parsable v = true) →
  step (Change p v) s =
  Return (tt, recorded (closing p l)
                (assigned l (name p) (mirror p v) (with_data p v s))).
Proof.
  intros ((Hc & _) & Hd) Hv.
  rewrite (step_change s l) by done. by rewrite (coerce_returns p v Hv).
Qed.

Lemma step_change_returned s l p v s' :
  live s l → step (Change p v) s = Return (tt, s') →
  (p = clipRect → parsable v = true) ∧
  s' = recorded (closing p l)
         (assigned l (name p) (mirror p v) (with_data p v s)).
Proof.
  intros Hlive Hstep.
  assert (p = clipRect → parsable v = true) as Hv.
  { intros ->. destruct (parsable v) eqn:E; [done|].
    destruct Hlive as ((Hc & _) & Hd).
    rewrite (step_change s l) in Hstep by done.
    unfold coerce in Hstep. destruct (unparsable_throws v E) as [e He].
    by rewrite He in Hstep. }
  split; [done|]. rewrite (step_change_eq s l p v Hlive Hv) in Hstep.
  by injection Hstep as <-.
Qed.

(** X4.  A [clipRect] that the declared validator accepts is safe to
    hand to the watcher: the watcher returns, and the field then holds
    [null] or an array of numbers none of which is NaN. *)
Theorem accepted_clipRect_is_safe s l v :
  live s l →
  validator (props clipRect) = Some (nullableValidator validateFloatArray) ∧
  (accepts (nullableValidator validateFloatArray) v = true →
   ∃ s', step (Change clipRect v) s = Return (tt, s') ∧
         (field s' "clipRect" = Some VNull ∨
          ∃ ns, field s' "clipRect" = Some (VArr (map VNum ns)) ∧
                Forall (λ n, is_NaN n = false) ns)).
Proof.
  intros Hlive. split; [done|]. intros Hv.
  assert (parsable v = true) as Hp.
  { destruct (parsable v) eqn:E; [done|]. by destruct v. }
  destruct (live_step_change s l clipRect v Hlive (λ _, Hp))
    as (s' & Hs' & Hf & _).
  exists s'. split; [done|]. cbn [name] in Hf. rewrite Hf. clear Hs' Hf.
  destruct (eq_null v) eqn:Hnull.
  { left. by destruct v. }
  right. unfold accepts, nullableValidator in Hv. rewrite Hnull in Hv.
  unfold mirror, coerce, nullableParser. rewrite Hnull.
  destruct v as [| |b|n|str|items|fs]; try done.
  - rewrite validateFloatArray_string in Hv.
    rewrite parseFloatArray_string. eexists. split; [done|].
    simpl in Hv. induction (split "," str) as [|piece pieces IH]; [constructor|].
    simpl in Hv. apply andb_prop in Hv as [Hpiece Hv].
    constructor; [by apply negb_true_iff|auto].
  - rewrite validateFloatArray_array in Hv. eexists. split; [done|].
    simpl in Hv. induction items as [|item items IH]; [constructor|].
    simpl in Hv. apply andb_prop in Hv as [Hitem Hv].
    constructor; [|auto]. apply negb_true_iff in Hitem.
    destruct item; try done. by rewrite is_NaN_parseFloat_number in Hitem.
Qed.

Lemma accepted_clipRect_is_safe_witness :
  ∃ s', step (Change clipRect (VStr "0,0,1,1")) (born ∅) = Return (tt, s') ∧
        (field s' "clipRect" = Some VNull ∨
         ∃ ns, field s' "clipRect" = Some (VArr (map VNum ns)) ∧
               Forall (λ n, is_NaN n = false) ns).
Proof.
  apply (proj2 (accepted_clipRect_is_safe
                  (born ∅) 0 (VStr "0,0,1,1") live_empty)).
  reflexivity.
Defined.

(** X5.  A watcher touches one field of one object: after a change of
    a prop, every other field of the [Text] and its listeners are as
    before, no [Text] was constructed, every other object and every
    other prop value is unchanged. *)
Theorem change_touches_one_field s l p v s' :
  live s l → step (Change p v) s = Return (tt, s') →
  (∀ f, f ≠ name p → field s' f = field s f) ∧
  (∃ t t', owned s = Some t ∧ owned s' = Some t' ∧
           listeners t' = listeners t) ∧
  length (heap s') = length (heap s) ∧
  cached_inst s' = cached_inst s ∧
  (∀ l', l' ≠ l → heap s' !! l' = heap s !! l') ∧
  (∀ q, q ≠ p → value_of s' q = value_of s q).
Proof.
  intros Hlive Hstep.
  destruct (step_change_returned s l p v s' Hlive Hstep) as (_ & ->).
  destruct Hlive as ((Hc & t & Ht & Hl) & Hd).
  unfold field, owned.
  cbn [cached_inst heap data recorded assigned with_heap with_data].
  rewrite Hc. cbn [mbind option_bind].
  rewrite list_lookup_alter_eq, Ht.
  cbn [fmap option_fmap option_map mbind option_bind].
  split_and!.
  - intros f Hf. unfold write. cbn [fields]. by rewrite lookup_insert_ne.
  - by exists t, (write (name p) (mirror p v) t).
  - by rewrite length_alter.
  - done.
  - intros l' Hl'. by rewrite list_lookup_alter_ne.
  - intros q Hq. unfold value_of.
    cbn [data recorded assigned with_heap with_data].
    rewrite lookup_insert_ne; [done|]. intros ?%name_inj. done.
Qed.

Lemma change_touches_one_field_witness :
  ∃ s', step (Change text (VStr "hello")) (born ∅) = Return (tt, s') ∧
        field s' "color" = field (born ∅) "color".
Proof.
  destruct (live_step_change (born ∅) 0 text (VStr "hello") live_empty)
    as (s' & Hs' & _); [done|].
  exists s'. split; [done|].
  by apply (proj1 (change_touches_one_field
                     (born ∅) 0 text (VStr "hello") s' live_empty Hs')).
Defined.

Lemma change_frame_aux s l p v s' :
  live s l → step (Change p v) s = Return (tt, s') →
  field s' (name p) = Some (mirror p v) ∧
  (∀ f, f ≠ name p → field s' f = field s f) ∧
  (∀ q, q ≠ p → value_of s' q = value_of s q).
Proof.
  intros Hlive Hstep.
  destruct (step_change_returned s l p v s' Hlive Hstep) as (_ & ->).
  destruct Hlive as ((Hc & t & Ht & Hl) & Hd). split_and!.
  - by eapply field_assigned.
  - intros f Hf. unfold field, owned.
    cbn [cached_inst heap data recorded assigned with_heap with_data].
    rewrite Hc. cbn [mbind option_bind].
    rewrite list_lookup_alter_eq, Ht.
    cbn [fmap option_fmap option_map mbind option_bind].
    unfold write. cbn [fields]. by rewrite lookup_insert_ne.
  - intros q Hq. unfold value_of.
    cbn [data recorded assigned with_heap with_data].
    rewrite lookup_insert_ne; [done|]. intros ?%name_inj. done.
Qed.

Lemma born_mirrors pd : mirrors (born pd).
Proof.
  intros p. rewrite field_born. f_equal. f_equal.
  rewrite <-value_of_initial. by rewrite born_eq.
Qed.

Lemma step_mirrors a s s' :
  inv s → mirrors s → step a s = Return (tt, s') → mirrors s'.
Proof.
  intros Hinv Hdecl Hstep. destruct a as [p v|l|].
  - destruct (is_destroyed s) eqn:Hd.
    { rewrite step_change_destroyed in Hstep by done. by injection Hstep as <-. }
    pose proof (inv_live s Hinv Hd) as Hlive.
    destruct (change_frame_aux s 0 p v s' Hlive Hstep) as (Hf & Hother & Hvals).
    intros q. destruct (decide (q = p)) as [->|Hq].
    + rewrite Hf. f_equal. f_equal. unfold value_of.
      destruct (step_change_returned s 0 p v s' Hlive Hstep) as (_ & ->).
      cbn [data recorded assigned with_heap with_data].
      by rewrite lookup_insert_eq.
    + rewrite Hother, Hvals, Hdecl; [done|done|].
      intros ?%name_inj. done.
  - destruct (step_synccomplete_frame s l)
      as (s1 & n & Hs1 & Hdata & Hc1 & Hh1 & _).
    rewrite Hs1 in Hstep. injection Hstep as <-.
    unfold mirrors, field, owned, value_of in *. by rewrite Hdata, Hc1, Hh1.
  - destruct (is_destroyed s) eqn:Hd.
    { rewrite step_destroy_destroyed in Hstep by done. by injection Hstep as <-. }
    destruct Hinv as (Hc & _).
    rewrite (step_destroy s 0) in Hstep by done. by injection Hstep as <-.
Qed.

Lemma run_mirrors acts s s' :
  inv s → mirrors s → run acts s = Return (tt, s') → mirrors s'.
Proof.
  revert s. induction acts as [|a acts IH]; intros s Hinv Hm.
  - by intros [= <-].
  - simpl. unfold mbind, M_bind.
    destruct (step a s) as [[[] s1]|] eqn:Hstep; [|done].
    intros Hrun. eapply IH; [by eapply step_inv|by eapply step_mirrors|done].
Qed.

Lemma born_declared_writes pd : Forall (declared_write 0) (trace (born pd)).
Proof.
  rewrite born_eq. cbn [trace].
  repeat apply Forall_app_2; [by repeat constructor| |by repeat constructor].
  apply Forall_map, Forall_forall. intros p _. split; [done|by exists p].
Qed.

Lemma step_declared_writes a s s' :
  inv s → Forall (declared_write 0) (trace s) →
  step a s = Return (tt, s') → Forall (declared_write 0) (trace s').
Proof.
  intros (Hc & _) Htr Hstep. destruct a as [p v|l|].
  - destruct (is_destroyed s) eqn:Hd.
    { rewrite step_change_destroyed in Hstep by done. by injection Hstep as <-. }
    rewrite (step_change s 0) in Hstep by done.
    destruct (coerce p v) as [v'|]; [|done]. injection Hstep as <-.
    cbn [trace recorded assigned with_heap with_data].
    repeat apply Forall_app_2; [done| |].
    + repeat constructor. by exists p.
    + unfold closing. destruct (relayout p); by repeat constructor.
  - destruct (step_synccomplete_frame s l)
      as (s1 & n & Hs1 & _ & _ & _ & _ & Htr1).
    rewrite Hs1 in Hstep. injection Hstep as <-. rewrite Htr1.
    apply Forall_app_2; [done|].
    clear. induction n as [|n IH]; by constructor.
  - destruct (is_destroyed s) eqn:Hd.
    { rewrite step_destroy_destroyed in Hstep by done. by injection Hstep as <-. }
    rewrite (step_destroy s 0) in Hstep by done. injection Hstep as <-.
    cbn [trace recorded with_destroyed].
    apply Forall_app_2; [done|by repeat constructor].
Qed.

Lemma run_declared_writes acts s s' :
  inv s → Forall (declared_write 0) (trace s) →
  run acts s = Return (tt, s') → Forall (declared_write 0) (trace s').
Proof.
  revert s. induction acts as [|a acts IH]; intros s Hinv Htr.
  - by intros [= <-].
  - simpl. unfold mbind, M_bind.
    destruct (step a s) as [[[] s1]|] eqn:Hstep; [|done].
    intros Hrun.
    eapply IH; [by eapply step_inv|by eapply step_declared_writes|done].
Qed.

(** X6.  Throughout the life of a component its [Text] mirrors its
    props: after construction and any sequence of changes, completed
    syncs and destruction, every declared field holds the coerced
    current value of its prop; and every assignment the component has
    made is to a declared field of its own [Text], the object
    [this.inst] returns. *)
Theorem text_mirrors_props pd acts s :
  life pd acts = Return s →
  (∀ p, field s (name p) = Some (mirror p (value_of s p))) ∧
  ∃ l, inst s = Return (l, s) ∧
       ∀ l' f v, In (Assign l' f v) (trace s) → l' = l ∧ ∃ p, f = name p.
Proof.
  intros Hs. pose proof (life_parsable _ _ _ Hs) as Hclip.
  rewrite life_eq in Hs by done.
  destruct (run acts (born pd)) as [[[] s1]|] eqn:Hrun; [|done].
  injection Hs as <-. split.
  - apply (run_mirrors acts (born pd) s1 (born_inv pd) (born_mirrors pd) Hrun).
  - exists 0. split.
    + apply inst_cached.
      apply (run_inv acts (born pd) s1 (born_inv pd) Hrun).
    + intros l' f v Hin.
      pose proof (run_declared_writes acts (born pd) s1 (born_inv pd)
                    (born_declared_writes pd) Hrun) as Htr.
      rewrite List.Forall_forall in Htr. apply (Htr _ Hin).
Qed.

Lemma text_mirrors_props_witness :
  ∃ s, life ∅ [Change text (VStr "a"); Change clipRect (VStr "1,2"); Destroy]
       = Return s ∧
       (∀ p, field s (name p) = Some (mirror p (value_of s p))) ∧
       ∃ l, inst s = Return (l, s) ∧
            ∀ l' f v, In (Assign l' f v) (trace s) → l' = l ∧ ∃ p, f = name p.
Proof.
  destruct (life_returns ∅ [Change text (VStr "a");
                            Change clipRect (VStr "1,2"); Destroy])
    as [s Hs]; [reflexivity|reflexivity|].
  exists s. split; [done|]. apply (text_mirrors_props _ _ _ Hs).
Defined.

Lemma step_counts a s s' :
  inv s → is_destroyed s = false → is_Destroy a = false →
  step a s = Return (tt, s') →
  count_calls is_sync (trace s')
  = count_calls is_sync (trace s) + (if is_relayout_change a then 1 else 0) ∧
  count_calls is_emit (trace s')
  = count_calls is_emit (trace s) + (if is_redraw_change a then 1 else 0)
                                  + (if is_completion a then 1 else 0) ∧
  count_calls is_assign (trace s')
  = count_calls is_assign (trace s) + (if is_change a then 1 else 0).
Proof.
  intros Hinv Hd Ha Hstep. destruct a as [p v|l|]; [| |done].
  - pose proof (inv_live s Hinv Hd) as Hlive.
    destruct (step_change_returned s 0 p v s' Hlive Hstep) as (_ & ->).
    cbn [trace recorded assigned with_heap with_data].
    rewrite <-app_assoc, !count_calls_app. simpl.
    unfold closing. destruct (relayout p); simpl; lia.
  - destruct Hinv as (_ & (t & Hh & Hl) & _). destruct l as [|l].
    + rewrite (step_synccomplete s 0 t) in Hstep by by rewrite ?Hh.
      injection Hstep as <-. cbn [trace recorded].
      rewrite !count_calls_app. simpl. lia.
    + unfold step, dispatch in Hstep. rewrite Hh in Hstep.
      injection Hstep as <-. simpl. lia.
Qed.

Lemma run_counts acts s s' :
  inv s → is_destroyed s = false → existsb is_Destroy acts = false →
  run acts s = Return (tt, s') →
  count_calls is_sync (trace s')
  = count_calls is_sync (trace s) + count_actions is_relayout_change acts ∧
  count_calls is_emit (trace s')
  = count_calls is_emit (trace s) + count_actions is_redraw_change acts
                                  + count_actions is_completion acts ∧
  count_calls is_assign (trace s')
  = count_calls is_assign (trace s) + count_actions is_change acts.
Proof.
  revert s. induction acts as [|a acts IH]; intros s Hinv Hd Hacts.
  - intros [= <-]. simpl. lia.
  - simpl in Hacts. apply orb_false_elim in Hacts as [Ha Hacts].
    simpl. unfold mbind, M_bind.
    destruct (step a s) as [[[] s1]|] eqn:Hstep; [|done]. intros Hrun.
    destruct (step_counts a s s1 Hinv Hd Ha Hstep) as (Hsync & Hemit & Hassign).
    assert (is_destroyed s1 = false) as Hd1.
    { by rewrite (step_destroyed _ _ _ Hinv Hstep), Hd, Ha. }
    destruct (IH s1 (step_inv _ _ _ Hinv Hstep) Hd1 Hacts Hrun)
      as (Hsync' & Hemit' & Hassign').
    rewrite Hsync', Hemit', Hassign', Hsync, Hemit, Hassign. lia.
Qed.

(** X7.  Nothing is coalesced or dropped.  In a life without
    destruction the component calls [sync] once at construction and
    once more for every change of a prop whose watcher syncs, emits the
    redraw signal once for every other change and once for every
    completed sync of its [Text], and assigns a field once per declared
    prop at construction and once per change. *)
Theorem calls_counted pd acts s :
  life pd acts = Return s → existsb is_Destroy acts = false →
  count_calls is_sync (trace s) = 1 + count_actions is_relayout_change acts ∧
  count_calls is_emit (trace s)
  = count_actions is_redraw_change acts + count_actions is_completion acts ∧
  count_calls is_assign (trace s)
  = length declared + count_actions is_change acts.
Proof.
  intros Hs Hacts. pose proof (life_parsable _ _ _ Hs) as Hclip.
  rewrite life_eq in Hs by done.
  destruct (run acts (born pd)) as [[[] s1]|] eqn:Hrun; [|done].
  injection Hs as <-.
  assert (is_destroyed (born pd) = false) as Hd by by rewrite born_eq.
  destruct (run_counts acts (born pd) s1 (born_inv pd) Hd Hacts Hrun)
    as (Hsync & Hemit & Hassign).
  rewrite Hsync, Hemit, Hassign, born_eq. cbn [trace].
  rewrite !count_calls_app. simpl. lia.
Qed.

Lemma calls_counted_witness :
  ∃ s, life ∅ [Change text (VStr "a"); Change text (VStr "b");
               SyncComplete 0; Change color (VStr "red")] = Return s ∧
       count_calls is_sync (trace s) = 3 ∧
       count_calls is_emit (trace s) = 2 ∧
       count_calls is_assign (trace s) = 34.
Proof.
  destruct (life_returns ∅ [Change text (VStr "a"); Change text (VStr "b");
                            SyncComplete 0; Change color (VStr "red")])
    as [s Hs]; [done|done|].
  exists s. split; [done|]. by apply (calls_counted _ _ _ Hs).
Defined.

(** X8.  Changes of two different props commute as far as the state
    goes: in either order the [Text] ends up with the same fields and
    the component with the same prop values; only the order of the
    calls differs. *)
Theorem changes_commute s l p q v w :
  live s l → p ≠ q →
  (p = clipRect → parsable v = true) → (q = clipRect → parsable w = true) →
  ∃ s1 s2,
    (step (Change p v);; step (Change q w)) s = Return (tt, s1) ∧
    (step (Change q w);; step (Change p v)) s = Return (tt, s2) ∧
    heap s1 = heap s2 ∧ data s1 = data s2 ∧
    cached_inst s1 = cached_inst s2 ∧ is_destroyed s1 = is_destroyed s2.
Proof.
  intros Hlive Hpq Hv Hw.
  destruct (live_step_change s l p v Hlive Hv) as (sp & Hsp & _ & _ & Hlivep).
  destruct (live_step_change s l q w Hlive Hw) as (sq & Hsq & _ & _ & Hliveq).
  pose proof (step_change_eq sp l q w Hlivep Hw) as Hspq.
  pose proof (step_change_eq sq l p v Hliveq Hv) as Hsqp.
  rewrite (step_change_eq s l p v Hlive Hv) in Hsp. injection Hsp as <-.
  rewrite (step_change_eq s l q w Hlive Hw) in Hsq. injection Hsq as <-.
  eexists _, _. split_and!.
  - rewrite (bind_eq _ _ _ _ _ (step_change_eq s l p v Hlive Hv)). apply Hspq.
  - rewrite (bind_eq _ _ _ _ _ (step_change_eq s l q w Hlive Hw)). apply Hsqp.
  - cbn [heap recorded assigned with_heap with_data].
    rewrite !list_alter_alter_eq. apply list_alter_ext; [|done].
    intros t _. unfold write. simpl. f_equal.
    apply insert_insert_ne. intros ?%name_inj. done.
  - cbn [data recorded assigned with_heap with_data].
    apply insert_insert_ne. intros ?%name_inj. done.
  - done.
  - done.
Qed.

Lemma changes_commute_witness :
  ∃ s1 s2,
    (step (Change text (VStr "a"));; step (Change color (VStr "red")))
      (born ∅) = Return (tt, s1) ∧
    (step (Change color (VStr "red"));; step (Change text (VStr "a")))
      (born ∅) = Return (tt, s2) ∧
    heap s1 = heap s2 ∧ data s1 = data s2 ∧
    cached_inst s1 = cached_inst s2 ∧ is_destroyed s1 = is_destroyed s2.
Proof.
  by apply (changes_commute (born ∅) 0 text color (VStr "a") (VStr "red")
              live_empty).
Defined.

Lemma mirror_default p : mirror p (default (props p)) = default (props p).
Proof. by destruct p. Qed.

(** X9.  Construction fills in the declared defaults.  A prop the
    parent did not pass, or passed as [undefined], reaches the [Text]
    as the default of the props table; a prop it did pass reaches the
    [Text] as passed, [clipRect] through its parser.  Every default is
    accepted by the validator declared for its prop. *)
Theorem construction_defaults pd p :
  parsable (initial_value pd clipRect) = true →
  (pd !! name p = None ∨ pd !! name p = Some VUndefined →
   field_after pd [] (name p) = Some (default (props p))) ∧
  (∀ v, pd !! name p = Some v → v ≠ VUndefined →
        field_after pd [] (name p) = Some (mirror p v)) ∧
  (∀ q f, validator (props q) = Some f → accepts f (default (props q)) = true).
Proof.
  intros Hclip.
  assert (field_after pd [] (name p) = Some (mirror p (initial_value pd p)))
    as Hfield.
  { unfold field_after. rewrite life_eq by done. cbn [run mret M_ret].
    apply field_born. }
  rewrite Hfield. unfold initial_value. split_and!.
  - intros [-> | ->]; by rewrite mirror_default.
  - intros v -> Hv. by destruct v; [destruct Hv|reflexivity..].
  - intros q f Hf.
    destruct q; cbn [props validator] in Hf; try discriminate Hf;
      injection Hf as <-; reflexivity.
Qed.

Lemma construction_defaults_witness :
  field_after (<["text" := VStr "hello"]> ∅) [] "fontSize"
  = Some (VNum (Fin false 1 (-1))) ∧
  field_after (<["text" := VStr "hello"]> ∅) [] "text" = Some (VStr "hello").
Proof.
  assert (parsable (initial_value (<["text" := VStr "hello"]> ∅) clipRect) = true)
    as Hclip by (vm_compute; reflexivity).
  split.
  - apply (proj1 (construction_defaults _ fontSize Hclip)).
    left. vm_compute. reflexivity.
  - apply (proj1 (proj2 (construction_defaults _ text Hclip)) (VStr "hello")).
    + vm_compute. reflexivity.
    + discriminate.
Defined.

(** X10.  The [destroyed] hook always returns and always disposes of
    exactly one [Text].  Its guard reads [this.inst], so on a component
    that has its [Text] the hook disposes of that one, and on a
    component that never read [inst] the guard itself constructs a
    [Text], which the hook then disposes of. *)
Theorem destroyed_disposes_one s :
  ∃ l s',
    destroyed s = Return (tt, s') ∧
    cached_inst s' = Some l ∧
    count_calls is_dispose (trace s') = S (count_calls is_dispose (trace s)) ∧
    match cached_inst s with
    | Some l0 => l = l0 ∧ heap s' = heap s ∧ trace s' = trace s ++ [Dispose l0]
    | None =>
        l = length (heap s) ∧
        length (heap s') = S (length (heap s)) ∧
        trace s' = trace s ++
          [NewText l; AddEventListener l "synccomplete"; Dispose l]
    end.
Proof.
  destruct (cached_inst s) as [l0|] eqn:Hc.
  - exists l0, (recorded (Dispose l0) s). unfold destroyed.
    rewrite (bind_eq _ _ _ _ _ (inst_cached s l0 Hc)).
    split_and!; try done.
    cbn [trace recorded]. rewrite count_calls_app. simpl. lia.
  - exists (length (heap s)), (recorded (Dispose (length (heap s))) (built s)).
    unfold destroyed. rewrite (bind_eq _ _ _ _ _ (inst_first s Hc)).
    split_and!; try done.
    + cbn [trace recorded built with_cache with_heap].
      rewrite !count_calls_app. simpl. lia.
    + cbn [heap recorded built with_cache with_heap].
      rewrite length_alter, length_app. simpl. lia.
    + cbn [trace recorded built with_cache with_heap].
      by rewrite <-!app_assoc.
Qed.

Lemma run_returns_destroyed acts s :
  inv s → is_destroyed s = true → ∃ s', run acts s = Return (tt, s').
Proof.
  revert s. induction acts as [|a acts IH]; intros s Hinv Hd; [by eexists|].
  assert (∃ s1, step a s = Return (tt, s1)) as [s1 Hs1].
  { destruct a as [p v|l|].
    - rewrite step_change_destroyed by done. eauto.
    - destruct (step_synccomplete_frame s l) as (s1 & n & -> & _). eauto.
    - rewrite step_destroy_destroyed by done. eauto. }
  assert (is_destroyed s1 = true) as Hd1.
  { by rewrite (step_destroyed _ _ _ Hinv Hs1), Hd. }
  destruct (IH s1 (step_inv _ _ _ Hinv Hs1) Hd1) as [s' Hs'].
  exists s'. simpl. by rewrite (bind_eq _ _ _ _ _ Hs1).
Qed.

Lemma run_returns_iff acts s :
  inv s → is_destroyed s = false →
  (∃ s', run acts s = Return (tt, s')) ↔ well_typed_life acts = true.
Proof.
  revert s. induction acts as [|a acts IH]; intros s Hinv Hd.
  - split; [done|]. intros _. by eexists.
  - pose proof (inv_live s Hinv Hd) as Hlive.
    destruct a as [p v|l|].
    + assert (well_typed_life (Change p v :: acts)
              = well_typed (Change p v) && well_typed_life acts) as -> by done.
      split.
      * intros [s' Hs']. simpl in Hs'. unfold mbind, M_bind in Hs'.
        destruct (step (Change p v) s) as [[[] s1]|] eqn:Hstep; [|done].
        destruct (step_change_returned s 0 p v s1 Hlive Hstep) as (Hv & _).
        apply andb_true_intro. split.
        { destruct p; try done. by apply Hv. }
        apply (IH s1); [by eapply step_inv| |by exists s'].
        by rewrite (step_destroyed _ _ _ Hinv Hstep), Hd.
      * intros [Hv Hacts]%andb_prop.
        destruct (step_returns (Change p v) s Hinv Hv) as [s1 Hs1].
        assert (is_destroyed s1 = false) as Hd1.
        { by rewrite (step_destroyed _ _ _ Hinv Hs1), Hd. }
        destruct (proj2 (IH s1 (step_inv _ _ _ Hinv Hs1) Hd1) Hacts)
          as [s' Hs'].
        exists s'. simpl. by rewrite (bind_eq _ _ _ _ _ Hs1).
    + assert (well_typed_life (SyncComplete l :: acts)
              = well_typed_life acts) as -> by done.
      destruct (step_returns (SyncComplete l) s Hinv eq_refl) as [s1 Hs1].
      assert (is_destroyed s1 = false) as Hd1.
      { by rewrite (step_destroyed _ _ _ Hinv Hs1), Hd. }
      rewrite <-(IH s1 (step_inv _ _ _ Hinv Hs1) Hd1).
      simpl. by rewrite (bind_eq _ _ _ _ _ Hs1).
    + split; [done|]. intros _.
      destruct (step_returns Destroy s Hinv eq_refl) as [s1 Hs1].
      assert (is_destroyed s1 = true) as Hd1.
      { by rewrite (step_destroyed _ _ _ Hinv Hs1), orb_true_r. }
      destruct (run_returns_destroyed acts s1 (step_inv _ _ _ Hinv Hs1) Hd1)
        as [s' Hs'].
      exists s'. simpl. by rewrite (bind_eq _ _ _ _ _ Hs1).
Qed.

(** X11.  The only thing that makes the component throw is a
    [clipRect] the parser has no case for.  A life ends normally
    exactly when the [clipRect] the component is constructed with, and
    every [clipRect] reported to its watcher before the component is
    destroyed, is [null], [undefined], a string or an array; no value
    of any other prop makes a watcher throw. *)
Theorem throws_only_on_untyped_clipRect pd acts :
  (∃ s, life pd acts = Return s) ↔
  parsable (initial_value pd clipRect) = true ∧ well_typed_life acts = true.
Proof.
  split.
  - intros [s Hs]. pose proof (life_parsable _ _ _ Hs) as Hclip.
    split; [done|]. rewrite life_eq in Hs by done.
    destruct (run acts (born pd)) as [[[] s1]|] eqn:Hrun; [|done].
    apply (run_returns_iff acts (born pd) (born_inv pd)); [|by exists s1].
    by rewrite born_eq.
  - intros [Hclip Hacts]. rewrite life_eq by done.
    destruct (proj2 (run_returns_iff acts (born pd) (born_inv pd)
                       ltac:(by rewrite born_eq)) Hacts) as [s ->].
    by exists s.
Qed.

Lemma throws_only_on_untyped_clipRect_witness :
  (∃ s, life ∅ [Change text (VBool true); Destroy;
                Change clipRect (VBool true)] = Return s) ∧
  ¬ (∃ s, life ∅ [Change clipRect (VBool true)] = Return s).
Proof.
  split.
  - by apply (proj2 (throws_only_on_untyped_clipRect ∅ _)).
  - intros H.
    by apply (proj1 (throws_only_on_untyped_clipRect ∅ _)) in H as [_ ?].
Defined.

(** ** Printing a number and reading it back *)

Module Printing.

Lemma digits_value_acc ds acc :
  fold_left (λ acc d, acc * 10 + d)%N ds acc
  = (acc * 10 ^ N.of_nat (length ds) + digits_value ds)%N.
Proof.
  unfold digits_value. revert acc.
  induction ds as [|d ds IH]; intros acc; simpl length.
  - cbn [fold_left]. rewrite N.pow_0_r. lia.
  - cbn [fold_left]. rewrite IH, (IH (0 * 10 + d)%N).
    rewrite Nat2N.inj_succ, N.pow_succ_r'. ring.
Qed.

Lemma digits_value_app ds ds' :
  digits_value (ds ++ ds')
  = (digits_value ds * 10 ^ N.of_nat (length ds') + digits_value ds')%N.
Proof. unfold digits_value at 1. by rewrite fold_left_app, digits_value_acc. Qed.

Lemma digits_value_zeros j : digits_value (zeros j) = 0%N.
Proof.
  induction j as [|j IH]; [done|].
  change (zeros (S j)) with ([0%N] ++ zeros j).
  rewrite digits_value_app, IH. change (digits_value [0%N]) with 0%N. lia.
Qed.

Lemma digits_value_leading_zeros j ds :
  digits_value (zeros j ++ ds) = digits_value ds.
Proof. rewrite digits_value_app, digits_value_zeros. lia. Qed.

Lemma of_uint_acc_value u acc :
  N.pos (Pos.of_uint_acc u acc)
  = fold_left (λ acc d, acc * 10 + d)%N (digits_of_uint u) (N.pos acc).
Proof.
  revert acc.
  induction u; intros acc; cbn [Pos.of_uint_acc digits_of_uint fold_left];
    [done|..]; rewrite IHu; f_equal; lia.
Qed.

Lemma digits_value_of_uint u : digits_value (digits_of_uint u) = N.of_uint u.
Proof.
  unfold N.of_uint.
  induction u; simpl; [done|by rewrite <-IHu|..];
    by rewrite of_uint_acc_value.
Qed.

Lemma digits_value_of_N m : digits_value (digits_of_N m) = m.
Proof.
  unfold digits_of_N. by rewrite digits_value_of_uint, DecimalN.Unsigned.of_to.
Qed.

Lemma digits_of_N_small m : Forall small (digits_of_N m).
Proof. apply digits_of_uint_small. Qed.

Lemma digits_of_N_nonempty m : digits_of_N m ≠ [].
Proof.
  unfold digits_of_N. destruct m as [|p]; [done|]. simpl.
  pose proof (DecimalPos.Unsigned.to_uint_nonnil p) as H.
  by destruct (Pos.to_uint p).
Qed.

(** *** Significant digits *)

Lemma drop_zeros_zeros j ds : drop_zeros (zeros j ++ ds) = drop_zeros ds.
Proof. induction j as [|j IH]; [done|]. by simpl. Qed.

Lemma drop_zeros_idem ds : drop_zeros (drop_zeros ds) = drop_zeros ds.
Proof. induction ds as [|[|d] ds IH]; by simpl. Qed.

Lemma drop_zeros_split ds :
  ∃ j, ds = zeros j ++ drop_zeros ds.
Proof.
  induction ds as [|[|d] ds [j IH]].
  - by exists 0.
  - exists (S j). change (0%N :: ds = 0%N :: (zeros j ++ drop_zeros ds)).
    by rewrite <-IH.
  - by exists 0.
Qed.

Lemma drop_zeros_fixed_app ds ds' :
  ds ≠ [] → drop_zeros ds = ds → drop_zeros (ds ++ ds') = ds ++ ds'.
Proof. destruct ds as [|[|d] ds]; try done. intros _ H. simpl in *.
  exfalso. pose proof (f_equal length H) as Hlen. simpl in Hlen.
  destruct (drop_zeros_split ds) as [j Hj].
  rewrite Hj in Hlen at 2. rewrite length_app in Hlen. lia.
Qed.

Lemma rev_zeros j : rev (zeros j) = zeros j.
Proof.
  unfold zeros. induction j as [|j IH]; [done|]. simpl. rewrite IH.
  by rewrite <-repeat_cons.
Qed.

(** The digits of a number split into the significant ones, which end
    in a digit other than zero, and the trailing zeros. *)
Lemma significant_split m :
  m ≠ 0%N →
  ∃ sig j,
    digits_of_N m = sig ++ zeros j ∧
    rev (drop_zeros (rev (digits_of_N m))) = sig ∧
    sig ≠ [] ∧ Forall small sig ∧
    drop_zeros (rev sig) = rev sig ∧
    digits_value sig ≠ 0%N.
Proof.
  intros Hm. set (all := digits_of_N m).
  destruct (drop_zeros_split (rev all)) as [j Hj].
  exists (rev (drop_zeros (rev all))), j.
  assert (all = rev (drop_zeros (rev all)) ++ zeros j) as Hall.
  { rewrite <-(rev_involutive all) at 1. rewrite Hj at 1.
    by rewrite rev_app_distr, rev_zeros. }
  assert (digits_value (rev (drop_zeros (rev all))) ≠ 0%N) as Hval.
  { intros H0. apply Hm. rewrite <-(digits_value_of_N m). fold all.
    rewrite Hall, digits_value_app, H0, digits_value_zeros. lia. }
  split_and!; try done.
  - intros H0. by rewrite H0 in Hval.
  - apply List.Forall_rev, drop_zeros_small, List.Forall_rev.
    apply digits_of_N_small.
  - by rewrite rev_involutive, drop_zeros_idem.
Qed.

Lemma strip_app_zeros ds j :
  rev (drop_zeros (rev (ds ++ zeros j))) = rev (drop_zeros (rev ds)).
Proof. by rewrite rev_app_distr, rev_zeros, drop_zeros_zeros. Qed.

Lemma strip_fixed pre sig :
  sig ≠ [] → drop_zeros (rev sig) = rev sig →
  rev (drop_zeros (rev (pre ++ sig))) = pre ++ sig.
Proof.
  intros Hne Hfix. rewrite rev_app_distr, drop_zeros_fixed_app; [|by destruct sig using rev_ind; [|rewrite rev_app_distr]|done].
  by rewrite <-rev_app_distr, rev_involutive.
Qed.

(** What [mk_fin] makes of the three shapes of digit lists that the
    layouts of a printed number read back as. *)
Lemma mk_fin_trailing neg sig j e :
  sig ≠ [] → drop_zeros (rev sig) = rev sig → digits_value sig ≠ 0%N →
  mk_fin neg (sig ++ zeros j) e = Fin neg (digits_value sig) (e + Z.of_nat j).
Proof.
  intros Hne Hfix Hval. unfold mk_fin.
  rewrite strip_app_zeros.
  pose proof (strip_fixed [] sig Hne Hfix) as Hstrip. cbn [app] in Hstrip.
  rewrite Hstrip. cbv zeta.
  apply N.eqb_neq in Hval. rewrite Hval. f_equal.
  rewrite length_app. unfold zeros. rewrite repeat_length. lia.
Qed.

Lemma mk_fin_leading neg sig i e :
  sig ≠ [] → drop_zeros (rev sig) = rev sig → digits_value sig ≠ 0%N →
  mk_fin neg (zeros i ++ sig) e = Fin neg (digits_value sig) e.
Proof.
  intros Hne Hfix Hval. unfold mk_fin.
  rewrite (strip_fixed (zeros i) sig Hne Hfix). cbv zeta.
  rewrite digits_value_leading_zeros.
  apply N.eqb_neq in Hval. rewrite Hval. f_equal. lia.
Qed.

(** *** Reading digits back *)

Lemma string_of_digits_app ds ds' :
  string_of_digits (ds ++ ds') = string_of_digits ds +:+ string_of_digits ds'.
Proof.
  induction ds as [|d ds IH]; [done|].
  change (String (digit_char d) (string_of_digits (ds ++ ds'))
          = String (digit_char d) (string_of_digits ds +:+ string_of_digits ds')).
  by rewrite IH.
Qed.

Lemma append_empty_r s : s +:+ EmptyString = s.
Proof.
  induction s as [|c s IH]; [done|].
  change (String c (s +:+ EmptyString) = String c s). by rewrite IH.
Qed.

Lemma take_digits_digits ds rest :
  Forall small ds → no_digit_head rest →
  take_digits (string_of_digits ds +:+ rest) = (ds, rest).
Proof.
  intros Hds Hrest. induction Hds as [|d ds Hd _ IH].
  - change (take_digits rest = ([], rest)).
    destruct rest as [|c rest]; [done|].
    cbn [take_digits]. unfold no_digit_head in Hrest. by rewrite Hrest.
  - change (take_digits (String (digit_char d) (string_of_digits ds +:+ rest))
            = (d :: ds, rest)).
    cbn [take_digits]. by rewrite (digit_of_digit_char d Hd), IH.
Qed.

Lemma parse_sign_digit c rest d :
  digit_of c = Some d → parse_sign (String c rest) = (false, String c rest).
Proof. destruct c as [[] [] [] [] [] [] [] []]; done. Qed.

Lemma not_Infinity_digit c rest d :
  digit_of c = Some d → starts_with "Infinity" (String c rest) = false.
Proof. destruct c as [[] [] [] [] [] [] [] []]; done. Qed.

Lemma not_white_space_digit c d :
  digit_of c = Some d → is_white_space c = false.
Proof. destruct c as [[] [] [] [] [] [] [] []]; done. Qed.

Lemma parse_exponent_exp_string x :
  parse_exponent (exp_string x) = (x, EmptyString).
Proof.
  pose proof (take_digits_digits (digits_of_N (Z.abs_N x)) EmptyString
                (digits_of_N_small _) I) as Htake.
  rewrite append_empty_r in Htake.
  pose proof (digits_of_N_nonempty (Z.abs_N x)) as Hne.
  pose proof (digits_value_of_N (Z.abs_N x)) as Hval.
  unfold exp_string. destruct (x <? 0)%Z eqn:Hx.
  - change (parse_exponent
              (String "e" (String "-"
                 (string_of_digits (digits_of_N (Z.abs_N x)))))
            = (x, EmptyString)).
    unfold parse_exponent. cbn [Ascii.eqb Bool.eqb orb parse_sign].
    rewrite Htake. destruct (digits_of_N (Z.abs_N x)) as [|d ds]; [done|].
    rewrite Hval. f_equal. lia.
  - change (parse_exponent
              (String "e" (String "+"
                 (string_of_digits (digits_of_N (Z.abs_N x)))))
            = (x, EmptyString)).
    unfold parse_exponent. cbn [Ascii.eqb Bool.eqb orb parse_sign].
    rewrite Htake. destruct (digits_of_N (Z.abs_N x)) as [|d ds]; [done|].
    rewrite Hval. f_equal. lia.
Qed.

(** A sign, digits, an optional fraction and an optional exponent read
    back as the number they spell. *)
Lemma literal_layout (neg : bool) di df (ex : option Z) :
  di ≠ [] → Forall small di → Forall small df →
  str_decimal_literal
    ((if neg then "-" else EmptyString) +:+ string_of_digits di +:+
     (match df with [] => EmptyString | _ => "." +:+ string_of_digits df end) +:+
     from_option exp_string EmptyString ex)
  = Some (mk_fin neg (di ++ df) (from_option id 0%Z ex - Z.of_nat (length df)),
          EmptyString).
Proof.
  intros Hdi Hsmall Hdf. set (tail := from_option exp_string EmptyString ex).
  assert (no_digit_head tail) as Htail by by destruct ex.
  assert (parse_exponent tail = (from_option id 0%Z ex, EmptyString)) as Hexp.
  { destruct ex as [x|]; [apply parse_exponent_exp_string|done]. }
  set (middle := match df with
                 | [] => EmptyString
                 | _ => "." +:+ string_of_digits df
                 end +:+ tail).
  assert (no_digit_head middle) as Hmiddle.
  { unfold middle. destruct df; [by destruct ex|done]. }
  assert (match middle with
          | String "." r' => take_digits r'
          | _ => ([], middle)
          end = (df, tail)) as Hfraction.
  { unfold middle. destruct df as [|d df'].
    - by destruct ex.
    - change (take_digits (string_of_digits (d :: df') +:+ tail)
              = (d :: df', tail)).
      by apply take_digits_digits. }
  unfold str_decimal_literal.
  destruct di as [|d0 di']; [done|]. inversion Hsmall as [|? ? Hd0 _]; subst.
  pose proof (digit_of_digit_char d0 Hd0) as Hc.
  assert (parse_sign ((if neg then "-" else EmptyString) +:+
                      string_of_digits (d0 :: di') +:+ middle)
          = (neg, string_of_digits (d0 :: di') +:+ middle)) as ->.
  { destruct neg; [done|]. by apply (parse_sign_digit _ _ d0). }
  change (string_of_digits (d0 :: di') +:+ middle)
    with (String (digit_char d0) (string_of_digits di' +:+ middle)) at 1.
  rewrite (not_Infinity_digit _ _ d0 Hc).
  change (String (digit_char d0) (string_of_digits di' +:+ middle))
    with (string_of_digits (d0 :: di') +:+ middle).
  rewrite (take_digits_digits (d0 :: di') middle Hsmall Hmiddle).
  rewrite Hfraction. cbn [app]. by rewrite Hexp.
Qed.

Lemma literal_parse_float (neg : bool) di df ex :
  di ≠ [] → Forall small di → Forall small df →
  parse_float
    ((if neg then "-" else EmptyString) +:+ string_of_digits di +:+
     (match df with [] => EmptyString | _ => "." +:+ string_of_digits df end) +:+
     from_option exp_string EmptyString ex)
  = mk_fin neg (di ++ df) (from_option id 0%Z ex - Z.of_nat (length df)).
Proof.
  intros Hdi Hsmall Hdf. unfold parse_float.
  pose proof (literal_layout neg di df ex Hdi Hsmall Hdf) as Hlit.
  set (s := (if neg then "-" else EmptyString) +:+ string_of_digits di +:+
     (match df with [] => EmptyString | _ => "." +:+ string_of_digits df end) +:+
     from_option exp_string EmptyString ex) in *.
  assert (trim_start s = s) as ->; [|by rewrite Hlit].
  unfold s. destruct neg; [done|].
  destruct di as [|d0 di']; [done|]. inversion Hsmall as [|? ? Hd0 _]; subst.
  change (EmptyString +:+ string_of_digits (d0 :: di') +:+ ?r)
    with (String (digit_char d0) (string_of_digits di' +:+ r)).
  cbn [trim_start].
  by rewrite (not_white_space_digit _ d0 (digit_of_digit_char d0 Hd0)).
Qed.

(** Rewrite the string under [parse_float] into the shape of
    [literal_parse_float] and read it back. *)
Ltac read_back H :=
  lazymatch goal with
  | |- parse_float ?A = _ =>
      lazymatch type of H with
      | parse_float ?B = _ => replace A with B; [rewrite H|]
      end
  end.

Lemma length_zeros j : length (zeros j) = j.
Proof. apply repeat_length. Qed.

Lemma zeros_small j : Forall small (zeros j).
Proof. induction j as [|j IH]; by constructor. Qed.

(** Each of the four layouts of a printed number reads back as the
    number. *)
Lemma parse_positive (neg : bool) m e :
  m ≠ 0%N →
  parse_float ((if neg then "-" else EmptyString) +:+ positive_to_string m e)
  = mk_fin neg (digits_of_N m) e.
Proof.
  intros Hm.
  destruct (significant_split m Hm)
    as (sig & j & Hall & Hstrip & Hne & Hsmall & Hfix & Hval).
  unfold positive_to_string. rewrite Hstrip, Hall. cbv zeta.
  rewrite (mk_fin_trailing neg sig j e Hne Hfix Hval).
  rewrite length_app, length_zeros.
  set (k := length sig).
  assert (0 < k) as Hk by (subst k; destruct sig; [done|simpl; lia]).
  set (n := (Z.of_nat (k + j) + e)%Z).
  destruct ((Z.of_nat k <=? n)%Z && (n <=? 21)%Z) eqn:H1.
  { apply andb_prop in H1 as [H1 _]. apply Z.leb_le in H1.
    assert (sig ++ zeros (Z.to_nat n - k) ≠ []) as Hdi by by destruct sig.
    assert (Forall small (sig ++ zeros (Z.to_nat n - k))) as Hdis.
    { apply Forall_app. split; [done|]. by apply zeros_small. }
    pose proof (literal_parse_float neg _ [] None Hdi Hdis (List.Forall_nil _))
      as Hread.
    read_back Hread.
    - rewrite app_nil_r, (mk_fin_trailing neg sig _ _ Hne Hfix Hval).
      f_equal. cbn [from_option id length]. lia.
    - cbn [from_option]. by rewrite !append_empty_r. }
  destruct ((0 <? n)%Z && (n <=? 21)%Z) eqn:H2.
  { apply andb_prop in H2 as [H2 H2']. apply Z.ltb_lt in H2.
    apply Z.leb_le in H2'.
    assert (Z.to_nat n < k) as Hlt.
    { apply andb_false_iff in H1 as [H1|H1]; apply Z.leb_gt in H1; lia. }
    assert (drop (Z.to_nat n) sig ≠ []) as Hdrop.
    { intros H0. apply (f_equal length) in H0.
      rewrite length_drop in H0. simpl in H0. lia. }
    assert (take (Z.to_nat n) sig ≠ []) as Htake.
    { intros H0. apply (f_equal length) in H0.
      rewrite length_take in H0. simpl in H0. lia. }
    assert (Forall small (take (Z.to_nat n) sig)) as Htakes
      by by apply Forall_take.
    assert (Forall small (drop (Z.to_nat n) sig)) as Hdrops
      by by apply Forall_drop.
    pose proof (literal_parse_float neg _ _ None Htake Htakes Hdrops)
      as Hread.
    read_back Hread.
    - rewrite take_drop. rewrite <-(app_nil_r sig) at 1.
      rewrite (mk_fin_trailing neg sig 0 _ Hne Hfix Hval).
      f_equal. cbn [from_option id]. rewrite length_drop. lia.
    - cbn [from_option]. destruct (drop (Z.to_nat n) sig) as [|d ds] eqn:E;
        [done|]. by rewrite !append_empty_r. }
  destruct ((-6 <? n)%Z && (n <=? 0)%Z) eqn:H3.
  { apply andb_prop in H3 as [_ H3]. apply Z.leb_le in H3.
    assert (Forall small (zeros (Z.to_nat (- n)) ++ sig)) as Hdfs.
    { apply Forall_app. split; [by apply zeros_small|done]. }
    assert (Forall small [0%N]) as Hzero by (constructor; [done|constructor]).
    pose proof (literal_parse_float neg [0%N] _ None
                  ltac:(done) Hzero Hdfs) as Hread.
    read_back Hread.
    - change ([0%N] ++ zeros (Z.to_nat (- n)) ++ sig)
        with (zeros (S (Z.to_nat (- n))) ++ sig).
      rewrite (mk_fin_leading neg sig _ _ Hne Hfix Hval).
      f_equal. cbn [from_option id]. rewrite length_app, length_zeros. lia.
    - cbn [from_option].
      destruct (zeros (Z.to_nat (- n)) ++ sig) as [|d ds] eqn:E.
      { apply (f_equal length) in E. rewrite length_app in E.
        simpl in E. lia. }
      by rewrite !append_empty_r. }
  destruct sig as [|d0 sig']; [done|].
  inversion Hsmall as [|? ? Hd0 Hsig']; subst.
  assert (Forall small [d0]) as Hd0s by (constructor; [done|constructor]).
  pose proof (literal_parse_float neg [d0] sig' (Some (n - 1)%Z)
                ltac:(done) Hd0s Hsig') as Hread.
  cbn [take drop firstn skipn].
  read_back Hread.
  - change ([d0] ++ sig') with (d0 :: sig').
    rewrite <-(app_nil_r (d0 :: sig')) at 1.
    rewrite (mk_fin_trailing neg (d0 :: sig') 0 _ Hne Hfix Hval).
    f_equal. cbn [from_option id]. subst n k. simpl length. lia.
  - cbn [from_option]. unfold exp_string. by destruct sig'.
Qed.

(** Reading a printed number gives the number back, in normal form. *)
Lemma parse_float_number_to_string x :
  parse_float (number_to_string x) = normalize x.
Proof.
  destruct x as [|neg|neg m e]; [done|by destruct neg|].
  unfold number_to_string, normalize.
  destruct (N.eqb m 0) eqn:E; [done|]. apply N.eqb_neq in E.
  by apply parse_positive.
Qed.

(** *** Commas *)

Lemma occurrences_app c s1 s2 :
  occurrences c (s1 +:+ s2) = occurrences c s1 + occurrences c s2.
Proof.
  induction s1 as [|c' s1 IH]; [done|].
  change (occurrences c (String c' (s1 +:+ s2))
          = occurrences c (String c' s1) + occurrences c s2).
  cbn [occurrences]. rewrite IH. lia.
Qed.

Lemma no_comma_digits ds :
  Forall small ds → occurrences "," (string_of_digits ds) = 0.
Proof.
  induction 1 as [|d ds Hd _ IH]; [done|].
  change (occurrences "," (String (digit_char d) (string_of_digits ds)) = 0).
  cbn [occurrences]. rewrite IH.
  pose proof (digit_of_digit_char d Hd) as Hc.
  by destruct (digit_char d) as [[] [] [] [] [] [] [] []].
Qed.

Lemma significant_small m :
  Forall small (rev (drop_zeros (rev (digits_of_N m)))).
Proof.
  apply List.Forall_rev, drop_zeros_small, List.Forall_rev, digits_of_N_small.
Qed.

Lemma no_comma_positive m e : occurrences "," (positive_to_string m e) = 0.
Proof.
  unfold positive_to_string. cbv zeta.
  pose proof (significant_small m) as Hsig.
  set (sig := rev (drop_zeros (rev (digits_of_N m)))) in *.
  assert (∀ ds, Forall small ds → occurrences "," (string_of_digits ds) = 0)
    as Hdigits by apply no_comma_digits.
  assert (Forall small (drop 1 sig)) as Hdrop by by apply Forall_drop.
  repeat case_match; subst;
    rewrite ?occurrences_app, ?Hdigits;
    try done;
    auto using zeros_small, digits_of_N_small, Forall_take, Forall_drop,
      Forall_app_2.
  all: try (apply Forall_app_2; auto using zeros_small).
Qed.

Lemma no_comma_number x : occurrences "," (number_to_string x) = 0.
Proof.
  destruct x as [|neg|neg m e]; [done|by destruct neg|].
  unfold number_to_string. destruct (N.eqb m 0); [done|].
  rewrite occurrences_app, no_comma_positive. by destruct neg.
Qed.

Lemma split_no_separator c s : occurrences c s = 0 → split c s = [s].
Proof.
  induction s as [|c' s IH]; [done|]. cbn [occurrences split].
  destruct (Ascii.eqb c' c); [done|]. intros H. by rewrite IH.
Qed.

Lemma split_join c strs :
  strs ≠ [] → Forall (λ s, occurrences c s = 0) strs →
  split c (join (String c EmptyString) strs) = strs.
Proof.
  intros Hne Hstrs. induction Hstrs as [|s strs Hs Hstrs IH]; [done|].
  destruct strs as [|s' strs].
  - by apply split_no_separator.
  - change (join (String c EmptyString) (s :: s' :: strs))
      with (s +:+ String c (join (String c EmptyString) (s' :: strs))).
    rewrite split_app, IH by done. by rewrite split_no_separator.
Qed.

Lemma to_string_numbers ns :
  to_string (VArr (map VNum ns)) = join "," (map number_to_string ns).
Proof.
  cbn [to_string]. f_equal. rewrite map_map. by apply map_ext.
Qed.

End Printing.

Import Printing.

Lemma is_NaN_normalize x : is_NaN (normalize x) = is_NaN x.
Proof.
  destruct x as [| |neg m e]; try done. unfold normalize, mk_fin.
  by repeat case_match.
Qed.

Lemma last_digit_value sig :
  sig ≠ [] → Forall small sig → drop_zeros (rev sig) = rev sig →
  (digits_value sig mod 10 ≠ 0)%N.
Proof.
  intros Hne Hsmall Hfix.
  destruct sig as [|d sig _] using rev_ind; [done|].
  rewrite rev_app_distr in Hfix. cbn [rev app] in Hfix.
  apply Forall_app in Hsmall as [_ Hd]. inversion Hd as [|? ? Hd' _]; subst.
  rewrite digits_value_app. change (digits_value [d]) with (0 * 10 + d)%N.
  cbn [length]. change (10 ^ N.of_nat 1)%N with 10%N.
  unfold small in Hd'.
  replace ((digits_value sig * 10 + (0 * 10 + d)) mod 10)%N with d.
  - intros ->. simpl in Hfix. apply (f_equal length) in Hfix.
    destruct (drop_zeros_split (rev sig)) as [j Hj].
    rewrite Hj in Hfix at 2. simpl in Hfix. rewrite length_app in Hfix. lia.
  - symmetry. rewrite N.add_comm, N.Div0.mod_add. apply N.mod_small. lia.
Qed.

(** What [normalize] does: the mantissa sheds its trailing zeros into
    the exponent, so that the number is the same and the mantissa is
    no multiple of ten. *)
Lemma normalize_spec neg m e :
  m ≠ 0%N →
  ∃ m' j, normalize (Fin neg m e) = Fin neg m' (e + Z.of_nat j) ∧
          m = (m' * 10 ^ N.of_nat j)%N ∧ (m' mod 10 ≠ 0)%N.
Proof.
  intros Hm.
  destruct (significant_split m Hm)
    as (sig & j & Hall & Hstrip & Hne & Hsmall & Hfix & Hval).
  exists (digits_value sig), j. split_and!.
  - unfold normalize. apply N.eqb_neq in Hm. rewrite Hm, Hall.
    by apply mk_fin_trailing.
  - rewrite <-(digits_value_of_N m), Hall at 1.
    rewrite digits_value_app, digits_value_zeros, length_zeros. lia.
  - by apply last_digit_value.
Qed.

Lemma normalize_normal neg m e :
  (m mod 10 ≠ 0)%N → normalize (Fin neg m e) = Fin neg m e.
Proof.
  intros Hmod. assert (m ≠ 0%N) as Hm by by intros ->.
  destruct (normalize_spec neg m e Hm) as (m' & j & -> & Hmm & _).
  destruct j as [|j].
  - f_equal; [rewrite Hmm; simpl; lia|lia].
  - exfalso. apply Hmod. rewrite Hmm, Nat2N.inj_succ, N.pow_succ_r'.
    replace (m' * (10 * 10 ^ N.of_nat j))%N
      with (0 + (m' * 10 ^ N.of_nat j) * 10)%N by lia.
    by rewrite N.Div0.mod_add.
Qed.

(** X12.  A clip rectangle may be written as an array of numbers or as
    the string that array prints as: the parser reads the printed form
    of a non-empty array of numbers back as the same numbers, each in
    normal form (unchanged when its mantissa is no multiple of ten, and
    in general with the trailing zeros of the mantissa moved to the
    exponent), and the validator gives the printed form the verdict it
    gives the array.  The empty array is the exception: it prints as
    the empty string, which parses to a single NaN. *)
Theorem printed_array_parses_back :
  (∀ ns, ns ≠ [] →
     parseFloatArray (VStr (to_string (VArr (map VNum ns))))
     = Return (map normalize ns) ∧
     validateFloatArray (VStr (to_string (VArr (map VNum ns))))
     = validateFloatArray (VArr (map VNum ns))) ∧
  (∀ neg m e, m ≠ 0%N →
     ∃ m' j, normalize (Fin neg m e) = Fin neg m' (e + Z.of_nat j) ∧
             m = (m' * 10 ^ N.of_nat j)%N ∧ (m' mod 10 ≠ 0)%N) ∧
  (∀ neg m e, (m mod 10 ≠ 0)%N → normalize (Fin neg m e) = Fin neg m e) ∧
  normalize zero = zero ∧
  parseFloatArray (VStr (to_string (VArr []))) = Return [NaN].
Proof.
  split_and!;
    [|apply normalize_spec|apply normalize_normal|reflexivity|reflexivity].
  intros ns Hne.
  assert (split "," (to_string (VArr (map VNum ns)))
          = map number_to_string ns) as Hsplit.
  { rewrite to_string_numbers. apply split_join; [by destruct ns|].
    apply Forall_map, Forall_forall. intros x _. apply no_comma_number. }
  split.
  - rewrite parseFloatArray_string, Hsplit, map_map.
    apply (f_equal Return), map_ext. intros x.
    apply parse_float_number_to_string.
  - rewrite validateFloatArray_string, validateFloatArray_array, Hsplit.
    do 2 f_equal. clear. induction ns as [|n ns IH]; [done|].
    cbn [map forallb]. by rewrite IH.
Qed.

Lemma printed_array_parses_back_witness :
  parseFloatArray (VStr (to_string (VArr (map VNum [zero; zero; one; one]))))
  = Return (map normalize [zero; zero; one; one]) ∧
  normalize (Fin false 25 (-1)) = Fin false 25 (-1).
Proof.
  destruct printed_array_parses_back as (Hread & _ & Hnormal & _).
  split.
  - by apply Hread.
  - by apply Hnormal.
Defined.
